(** * Atomic operations of the Solaris/SPARC HotSpot backend

    A shallow embedding of
    [hotspot/src/os_cpu/solaris_sparc/vm/atomic_solaris_sparc.hpp].

    The header is a thin typed facade: plain stores and one load are
    written as C++ dereferences, everything else forwards to seven
    [extern "C"] primitives implemented in [solaris_sparc.il].

    - Memory is a finite map from byte addresses to bytes.  SPARC is
      big-endian, so a value of [n] bytes occupies [n] consecutive
      addresses, most significant byte first.
    - Integers are [Z]; the wrap-around of a C conversion is written out
      by [cast].
    - An operation is a function from the memory before the call to the
      result and the memory after it.  An access to an address that is
      not mapped, or not aligned for the type of the access, is
      undefined behaviour in the source and [None] here.
    - The primitives of [solaris_sparc.il] are a record [HwAtomics]; the
      facade is written over an arbitrary such record, and [sparc_il] is
      the instance that the specification describes. *)

From Stdlib Require Import ZArith Lia List.
From Stdlib Require Import Strings.Byte.
From stdpp Require Import base option gmap.
Import ListNotations.

Local Open Scope Z_scope.

(** ** Bytes and big-endian encoding *)

Definition byte_of_Z (z : Z) : byte :=
  match Byte.of_N (Z.to_N (z mod 256)) with
  | Some b => b
  | None => x00
  end.

Definition Z_of_byte (b : byte) : Z := Z.of_N (Byte.to_N b).

(** The [n] bytes of [z], most significant first. *)
Fixpoint encode_be (n : nat) (z : Z) : list byte :=
  match n with
  | O => []
  | S k => byte_of_Z (z / 2 ^ (8 * Z.of_nat k)) :: encode_be k z
  end.

Definition push_byte (acc : Z) (b : byte) : Z := acc * 256 + Z_of_byte b.

(** The unsigned number that a sequence of bytes spells. *)
Definition decode_be (bs : list byte) : Z := fold_left push_byte bs 0.

(** ** C types of the header *)

Inductive ctype : Set :=
| jbyte | jshort | jint | jlong | intptr_t | void_ptr.

(** The header casts [jlong] to [intptr_t] and hands [intptr_t] to the
    [..64] primitives: it is an LP64 file, pointers are eight bytes. *)
Definition sizeof (t : ctype) : nat :=
  match t with
  | jbyte => 1
  | jshort => 2
  | jint => 4
  | jlong | intptr_t | void_ptr => 8
  end%nat.

Definition is_signed (t : ctype) : bool :=
  match t with
  | void_ptr => false
  | _ => true
  end.

Definition bits (t : ctype) : Z := 8 * Z.of_nat (sizeof t).

Definition unsigned (w z : Z) : Z := z mod 2 ^ w.

Definition signed (w z : Z) : Z := (z + 2 ^ (w - 1)) mod 2 ^ w - 2 ^ (w - 1).

(** Conversion of an integer to type [t]: keep the low [bits t] bits and
    read them in two's complement for the signed types. *)
Definition cast (t : ctype) (z : Z) : Z :=
  if is_signed t then signed (bits t) z else unsigned (bits t) z.

Definition min_value (t : ctype) : Z :=
  if is_signed t then - 2 ^ (bits t - 1) else 0.

Definition max_value (t : ctype) : Z :=
  if is_signed t then 2 ^ (bits t - 1) - 1 else 2 ^ bits t - 1.

(** [v] is a value of type [t]. *)
Definition typed (t : ctype) (v : Z) : Prop := min_value t <= v <= max_value t.

(** Two integers with the same low [w] bits. *)
Definition same_bits (w a b : Z) : Prop := a mod 2 ^ w = b mod 2 ^ w.

(** ** Memory and operations on it *)

Abbreviation mem := (gmap Z byte).

Definition M (A : Type) : Type := mem -> option (A * mem).

Definition ret {A} (x : A) : M A := fun m => Some (x, m).

Definition bind {A B} (c : M A) (k : A -> M B) : M B :=
  fun m => match c m with
           | Some (x, m') => k x m'
           | None => None
           end.

Notation "'let*' x ':=' c 'in' k" := (bind c (fun x => k))
  (at level 10, x name, c at level 100, k at level 200).

Fixpoint read_bytes (n : nat) (a : Z) (m : mem) : option (list byte) :=
  match n with
  | O => Some []
  | S k => match m !! a, read_bytes k (a + 1) m with
           | Some b, Some bs => Some (b :: bs)
           | _, _ => None
           end
  end.

Fixpoint write_bytes (bs : list byte) (a : Z) (m : mem) : option mem :=
  match bs with
  | [] => Some m
  | b :: bs' => match m !! a with
                | Some _ => write_bytes bs' (a + 1) (<[a := b]> m)
                | None => None
                end
  end.

(** SPARC accesses are naturally aligned: the address of a value is a
    multiple of its size. *)
Definition aligned (t : ctype) (p : Z) : bool := p mod Z.of_nat (sizeof t) =? 0.

(** The value of type [t] stored at address [p], if [p] is aligned for
    [t] and mapped. *)
Definition holds (t : ctype) (p : Z) (m : mem) : option Z :=
  if aligned t p then
    match read_bytes (sizeof t) p m with
    | Some bs => Some (cast t (decode_be bs))
    | None => None
    end
  else None.

(** The bits at address [p] over the width of [t], read as a natural
    number. *)
Definition pattern (t : ctype) (p : Z) (m : mem) : option Z :=
  if aligned t p then
    match read_bytes (sizeof t) p m with
    | Some bs => Some (decode_be bs)
    | None => None
    end
  else None.

(** [*p] read at type [t]. *)
Definition deref (t : ctype) (p : Z) : M Z :=
  fun m => match holds t p m with
           | Some v => Some (v, m)
           | None => None
           end.

(** [*p = v] at type [t]. *)
Definition assign (t : ctype) (p v : Z) : M unit :=
  fun m => if aligned t p then
             match write_bytes (encode_be (sizeof t) v) p m with
             | Some m' => Some (tt, m')
             | None => None
             end
           else None.

(** The memory an operation leaves, forgetting what it returns. *)
Definition final_state {A} (r : option (A * mem)) : option mem :=
  match r with
  | Some (_, m') => Some m'
  | None => None
  end.

(** Apply [f] to what an operation returns. *)
Definition map_result {A B} (f : A -> B) (r : option (A * mem)) : option (B * mem) :=
  match r with
  | Some (x, m') => Some (f x, m')
  | None => None
  end.

(** Two outcomes that agree on definedness and on the memory they leave,
    and whose returned integers have the same 64-bit pattern. *)
Definition bit_identical (r1 r2 : option (Z * mem)) : Prop :=
  match r1, r2 with
  | Some (v1, m1), Some (v2, m2) => same_bits 64 v1 v2 /\ m1 = m2
  | None, None => True
  | _, _ => False
  end.

(** ** The primitives of [solaris_sparc.il]

    Lines 64-72 of the header declare them [extern "C"]; each takes its
    value arguments and the destination address. *)

Record HwAtomics : Type := {
  _Atomic_swap32 : Z -> Z -> M Z;
  _Atomic_swap64 : Z -> Z -> M Z;
  _Atomic_cas32 : Z -> Z -> Z -> M Z;
  _Atomic_cas64 : Z -> Z -> Z -> M Z;
  _Atomic_casl : Z -> Z -> Z -> M Z;
  _Atomic_add32 : Z -> Z -> M Z;
  _Atomic_add64 : Z -> Z -> M Z
}.

(** The same primitives with another [_Atomic_casl]. *)
Definition with_casl (f : Z -> Z -> Z -> M Z) (hw : HwAtomics) : HwAtomics :=
  {| _Atomic_swap32 := _Atomic_swap32 hw;
     _Atomic_swap64 := _Atomic_swap64 hw;
     _Atomic_cas32 := _Atomic_cas32 hw;
     _Atomic_cas64 := _Atomic_cas64 hw;
     _Atomic_casl := f;
     _Atomic_add32 := _Atomic_add32 hw;
     _Atomic_add64 := _Atomic_add64 hw |}.

(** ** The facade: class [Atomic]

    C++ overloads share a name; here each carries the type of its
    destination as a suffix.  The overloads of [store] and [store_ptr]
    for a [volatile] destination (lines 38-42 and 54) have the same body
    as those for a plain one (lines 32-36 and 53), and a sequential
    memory gives [volatile] no meaning: one definition stands for both. *)

Module Atomic.

Section Facade.

Variable hw : HwAtomics.

(** The type of the ordering argument of [cmpxchg].  The enumeration
    is declared in [runtime/atomic.hpp]; the header only passes it. *)
Context {cmpxchg_memory_order : Type}.

Definition store_jbyte (store_value dest : Z) : M unit := assign jbyte dest store_value.
Definition store_jshort (store_value dest : Z) : M unit := assign jshort dest store_value.
Definition store_jint (store_value dest : Z) : M unit := assign jint dest store_value.
Definition store_ptr_intptr (store_value dest : Z) : M unit := assign intptr_t dest store_value.
(** [*(void** )dest = store_value] *)
Definition store_ptr_voidp (store_value dest : Z) : M unit := assign void_ptr dest store_value.

Definition store_jlong (store_value dest : Z) : M unit := assign jlong dest store_value.
Definition load_jlong (src : Z) : M Z := deref jlong src.

Definition add_jint (add_value dest : Z) : M Z := _Atomic_add32 hw add_value dest.

Definition add_ptr_intptr (add_value dest : Z) : M Z := _Atomic_add64 hw add_value dest.

Definition add_ptr_voidp (add_value dest : Z) : M Z :=
  let* r := add_ptr_intptr (cast intptr_t add_value) dest in
  ret (cast void_ptr r).

Definition inc_jint (dest : Z) : M unit := let* _ := add_jint 1 dest in ret tt.
Definition inc_ptr_intptr (dest : Z) : M unit := let* _ := add_ptr_intptr 1 dest in ret tt.
Definition inc_ptr_voidp (dest : Z) : M unit := let* _ := add_ptr_voidp 1 dest in ret tt.

Definition dec_jint (dest : Z) : M unit := let* _ := add_jint (-1) dest in ret tt.
Definition dec_ptr_intptr (dest : Z) : M unit := let* _ := add_ptr_intptr (-1) dest in ret tt.
Definition dec_ptr_voidp (dest : Z) : M unit := let* _ := add_ptr_voidp (-1) dest in ret tt.

Definition xchg_jint (exchange_value dest : Z) : M Z := _Atomic_swap32 hw exchange_value dest.

Definition xchg_ptr_intptr (exchange_value dest : Z) : M Z := _Atomic_swap64 hw exchange_value dest.

Definition xchg_ptr_voidp (exchange_value dest : Z) : M Z :=
  let* r := xchg_ptr_intptr (cast intptr_t exchange_value) dest in
  ret (cast void_ptr r).

Definition cmpxchg_jint (exchange_value dest compare_value : Z)
    (order : cmpxchg_memory_order) : M Z :=
  _Atomic_cas32 hw exchange_value dest compare_value.

Definition cmpxchg_jlong (exchange_value dest compare_value : Z)
    (order : cmpxchg_memory_order) : M Z :=
  let* r := _Atomic_cas64 hw (cast intptr_t exchange_value) dest
              (cast intptr_t compare_value) in
  ret (cast jlong r).

Definition cmpxchg_ptr_intptr (exchange_value dest compare_value : Z)
    (order : cmpxchg_memory_order) : M Z :=
  _Atomic_cas64 hw exchange_value dest compare_value.

Definition cmpxchg_ptr_voidp (exchange_value dest compare_value : Z)
    (order : cmpxchg_memory_order) : M Z :=
  let* r := cmpxchg_ptr_intptr (cast intptr_t exchange_value) dest
              (cast intptr_t compare_value) order in
  ret (cast void_ptr r).

(** The overloads of each operation, with the type of the location. *)
Definition store_overloads : list (ctype * (Z -> Z -> M unit)) :=
  [ (jbyte, store_jbyte); (jshort, store_jshort); (jint, store_jint);
    (jlong, store_jlong); (intptr_t, store_ptr_intptr);
    (void_ptr, store_ptr_voidp) ].

Definition add_overloads : list (ctype * (Z -> Z -> M Z)) :=
  [ (jint, add_jint); (intptr_t, add_ptr_intptr); (void_ptr, add_ptr_voidp) ].

Definition xchg_overloads : list (ctype * (Z -> Z -> M Z)) :=
  [ (jint, xchg_jint); (intptr_t, xchg_ptr_intptr); (void_ptr, xchg_ptr_voidp) ].

Definition cmpxchg_overloads
  : list (ctype * (Z -> Z -> Z -> cmpxchg_memory_order -> M Z)) :=
  [ (jint, cmpxchg_jint); (jlong, cmpxchg_jlong);
    (intptr_t, cmpxchg_ptr_intptr); (void_ptr, cmpxchg_ptr_voidp) ].

End Facade.

End Atomic.

Import Atomic.

(** ** The primitives as the specification describes them *)

(** Modelled from the spec: the swap primitives of [solaris_sparc.il]
    ("(newValue, location) -> previous value": store the new value and
    return the value that was previously stored). *)
Definition swap (t : ctype) (exchange_value dest : Z) : M Z :=
  let* old := deref t dest in
  let* _ := assign t dest exchange_value in
  ret old.

(** Modelled from the spec: the compare-and-swap primitives of
    [solaris_sparc.il] (compare the contents of the location with the
    expected value; if equal store the new value; return the value that
    was in the location before the operation). *)
Definition cas (t : ctype) (exchange_value dest compare_value : Z) : M Z :=
  let* old := deref t dest in
  if Z.eqb old compare_value
  then let* _ := assign t dest exchange_value in ret old
  else ret old.

(** Modelled from the spec: the fetch-add primitives of
    [solaris_sparc.il] (add the delta to the value at the location and
    return the new value; the sum wraps modulo two to the width). *)
Definition fetch_add (t : ctype) (add_value dest : Z) : M Z :=
  let* old := deref t dest in
  let new := cast t (old + add_value) in
  let* _ := assign t dest new in
  ret new.

(** Modelled from the spec: the seven entry points of [solaris_sparc.il],
    at the widths of their declarations in the header. *)
Definition sparc_il : HwAtomics :=
  {| _Atomic_swap32 := swap jint;
     _Atomic_swap64 := swap intptr_t;
     _Atomic_cas32 := cas jint;
     _Atomic_cas64 := cas intptr_t;
     _Atomic_casl := cas jlong;
     _Atomic_add32 := fetch_add jint;
     _Atomic_add64 := fetch_add intptr_t |}.

(** A small memory to run the operations on: sixteen mapped bytes at
    addresses 96..111.  The eight bytes at 96 spell 5 (and so do the
    four at 100); the eight bytes at 104 are all ones. *)
Definition mem0 : mem :=
  list_to_map
    [ (96, x00); (97, x00); (98, x00); (99, x00);
      (100, x00); (101, x00); (102, x00); (103, x05);
      (104, xff); (105, xff); (106, xff); (107, xff);
      (108, xff); (109, xff); (110, xff); (111, xff) ].

(** The outcome of an operation whose returned value the caller drops:
    [(void)op(...)]. *)
Definition discard {A} (r : option (A * mem)) : option (unit * mem) :=
  map_result (fun _ => tt) r.

(** Two outcomes with the same effect on memory: both undefined, or
    both defined and leaving the same memory. *)
Definition same_effect {A B} (r1 : option (A * mem)) (r2 : option (B * mem)) : Prop :=
  final_state r1 = final_state r2.

(** ** Vocabulary for the composition of operations *)

(** Address [a] lies in the bytes of a location of type [t] at [p]. *)
Definition in_location (t : ctype) (p a : Z) : Prop :=
  p <= a < p + Z.of_nat (sizeof t).

(** Two locations that share no byte. *)
Definition disjoint (t1 : ctype) (p1 : Z) (t2 : ctype) (p2 : Z) : Prop :=
  p1 + Z.of_nat (sizeof t1) <= p2 \/ p2 + Z.of_nat (sizeof t2) <= p1.

(** An operation that keeps a property of the memory. *)
Definition preserves {A} (P : mem -> Prop) (c : M A) : Prop :=
  forall m r m', c m = Some (r, m') -> P m -> P m'.

(** An operation run [n] times in a row. *)
Fixpoint repeat_op (n : nat) (c : M unit) : M unit :=
  match n with
  | O => ret tt
  | S k => let* _ := c in repeat_op k c
  end.

(** What the header's declaration of a fetch-add primitive promises of
    it at type [t]: on a location that holds [V] it returns the sum of
    [V] and the delta in the arithmetic of [t], and leaves the location
    holding that sum. *)
Definition fetch_add_contract (t : ctype) (prim : Z -> Z -> M Z) : Prop :=
  forall (add_value dest V : Z) (m : mem),
    holds t dest m = Some V ->
    exists m', prim add_value dest m = Some (cast t (V + add_value), m') /\
               holds t dest m' = Some (cast t (V + add_value)).

(** What the declaration of a swap primitive promises of it at type
    [t]: it returns what the location held and leaves it holding the
    new value. *)
Definition swap_contract (t : ctype) (prim : Z -> Z -> M Z) : Prop :=
  forall (exchange_value dest V : Z) (m : mem),
    holds t dest m = Some V ->
    exists m', prim exchange_value dest m = Some (V, m') /\
               holds t dest m' = Some (cast t exchange_value).

(** What the declaration of a compare-and-swap primitive promises of it
    at type [t]: it returns what the location held; if that is the
    compare value the location then holds the new value, and otherwise
    the memory is as it was. *)
Definition cas_contract (t : ctype) (prim : Z -> Z -> Z -> M Z) : Prop :=
  forall (exchange_value dest compare_value V : Z) (m : mem),
    holds t dest m = Some V ->
    (V = compare_value ->
     exists m', prim exchange_value dest compare_value m = Some (V, m') /\
                holds t dest m' = Some (cast t exchange_value)) /\
    (V <> compare_value ->
     prim exchange_value dest compare_value m = Some (V, m)).

(** The overloads of [inc] and [dec] (lines 44-50), with the type of the
    location. *)
Definition inc_dec_overloads (hw : HwAtomics)
  : list (ctype * ((Z -> M unit) * (Z -> M unit))) :=
  [ (jint, (inc_jint hw, dec_jint hw));
    (intptr_t, (inc_ptr_intptr hw, dec_ptr_intptr hw));
    (void_ptr, (inc_ptr_voidp hw, dec_ptr_voidp hw)) ].

(** Picks the overload out of a table hypothesis. *)
Ltac pick_overload H :=
  simpl in H;
  repeat (destruct H as [H|H]; [injection H as <- <- | ]);
  [ .. | contradiction ].

(** * Properties *)

(** ** Encoding *)

Section Encoding.

Local Arguments Z.pow : simpl never.
Local Arguments Z.mul : simpl never.
Local Arguments Z.of_nat : simpl never.

Lemma Z_of_byte_range (b : byte) : 0 <= Z_of_byte b < 256.
Proof.
  unfold Z_of_byte. pose proof (Byte.to_N_bounded b) as Hb. lia.
Qed.

Lemma Z_of_byte_of_Z (z : Z) : Z_of_byte (byte_of_Z z) = z mod 256.
Proof.
  unfold Z_of_byte, byte_of_Z.
  assert (Hr : 0 <= z mod 256 < 256) by (apply Z.mod_pos_bound; lia).
  destruct (Byte.of_N (Z.to_N (z mod 256))) as [b|] eqn:Hb.
  - apply Byte.to_of_N in Hb. rewrite Hb. lia.
  - apply Byte.of_N_None_iff in Hb. lia.
Qed.

Lemma byte_of_Z_mod (z : Z) : byte_of_Z (z mod 256) = byte_of_Z z.
Proof. unfold byte_of_Z. now rewrite Z.mod_mod by lia. Qed.

Lemma pow_bytes_succ (k : nat) :
  2 ^ (8 * Z.of_nat (S k)) = 2 ^ (8 * Z.of_nat k) * 256.
Proof.
  replace (8 * Z.of_nat (S k)) with (8 * Z.of_nat k + 8) by lia.
  rewrite Z.pow_add_r by lia. reflexivity.
Qed.

Lemma pow_bytes_pos (k : nat) : 0 < 2 ^ (8 * Z.of_nat k).
Proof. apply Z.pow_pos_nonneg; lia. Qed.

(** Splitting a number at a byte boundary. *)
Lemma mod_bytes_succ (k : nat) (z : Z) :
  z mod 2 ^ (8 * Z.of_nat (S k)) =
  z mod 2 ^ (8 * Z.of_nat k) + 2 ^ (8 * Z.of_nat k) * ((z / 2 ^ (8 * Z.of_nat k)) mod 256).
Proof.
  rewrite pow_bytes_succ. pose proof (pow_bytes_pos k).
  apply Z.rem_mul_r; lia.
Qed.

Lemma length_encode_be (n : nat) (z : Z) : length (encode_be n z) = n.
Proof. induction n as [|k IH]; simpl; [reflexivity | now rewrite IH]. Qed.

Lemma fold_encode_be (n : nat) (z acc : Z) :
  fold_left push_byte (encode_be n z) acc =
  acc * 2 ^ (8 * Z.of_nat n) + z mod 2 ^ (8 * Z.of_nat n).
Proof.
  revert acc. induction n as [|k IH]; intros acc.
  - simpl. change (2 ^ (8 * Z.of_nat 0)) with 1. rewrite Z.mod_1_r. lia.
  - simpl. rewrite IH. unfold push_byte. rewrite Z_of_byte_of_Z.
    rewrite mod_bytes_succ, pow_bytes_succ. ring.
Qed.

(** Decoding the [n] bytes of [z] gives back its low [8 n] bits. *)
Lemma decode_encode_be (n : nat) (z : Z) :
  decode_be (encode_be n z) = z mod 2 ^ (8 * Z.of_nat n).
Proof. unfold decode_be. rewrite fold_encode_be. lia. Qed.

Lemma fold_push_byte_range (bs : list byte) (acc : Z) :
  acc * 2 ^ (8 * Z.of_nat (length bs))
  <= fold_left push_byte bs acc
  < (acc + 1) * 2 ^ (8 * Z.of_nat (length bs)).
Proof.
  revert acc. induction bs as [|b bs IH]; intros acc.
  - simpl. change (2 ^ (8 * Z.of_nat 0)) with 1. lia.
  - simpl length. rewrite pow_bytes_succ. simpl fold_left.
    specialize (IH (push_byte acc b)). unfold push_byte in *.
    pose proof (Z_of_byte_range b). pose proof (pow_bytes_pos (length bs)).
    nia.
Qed.

(** Bytes spell a number below two to their bit count. *)
Lemma decode_be_range (bs : list byte) :
  0 <= decode_be bs < 2 ^ (8 * Z.of_nat (length bs)).
Proof.
  unfold decode_be. pose proof (fold_push_byte_range bs 0). lia.
Qed.

(** The bytes of a number depend on its low bits only. *)
Lemma encode_be_same_bits (n : nat) (z1 z2 : Z) :
  same_bits (8 * Z.of_nat n) z1 z2 -> encode_be n z1 = encode_be n z2.
Proof.
  unfold same_bits. induction n as [|k IH]; intros H; [reflexivity|].
  rewrite !mod_bytes_succ in H.
  pose proof (pow_bytes_pos k) as HP.
  set (P := 2 ^ (8 * Z.of_nat k)) in *.
  pose proof (Z.mod_pos_bound z1 P HP) as H1.
  pose proof (Z.mod_pos_bound z2 P HP) as H2.
  pose proof (Z.mod_pos_bound (z1 / P) 256 ltac:(lia)) as H3.
  pose proof (Z.mod_pos_bound (z2 / P) 256 ltac:(lia)) as H4.
  assert (Hq : (z1 / P) mod 256 = (z2 / P) mod 256) by nia.
  assert (Hr : z1 mod P = z2 mod P) by nia.
  simpl. fold P. rewrite (IH Hr). f_equal.
  rewrite <- (byte_of_Z_mod (z1 / P)), Hq. apply byte_of_Z_mod.
Qed.

End Encoding.

(** ** Conversions *)

Lemma bits_pos (t : ctype) : 0 < bits t.
Proof. destruct t; reflexivity. Qed.

Lemma signed_same_bits (w z : Z) : 0 < w -> same_bits w (signed w z) z.
Proof.
  intros Hw. unfold same_bits, signed.
  assert (Hp : 0 < 2 ^ w) by (apply Z.pow_pos_nonneg; lia).
  assert (Hh : 2 ^ w = 2 * 2 ^ (w - 1)).
  { replace w with (1 + (w - 1)) at 1 by lia. rewrite Z.pow_add_r by lia. reflexivity. }
  rewrite Zminus_mod, Zmod_mod, <- Zminus_mod.
  f_equal. lia.
Qed.

Lemma unsigned_same_bits (w z : Z) : same_bits w (unsigned w z) z.
Proof. unfold same_bits, unsigned. apply Zmod_mod. Qed.

(** A conversion keeps the bit pattern. *)
Lemma cast_same_bits (t : ctype) (z : Z) : same_bits (bits t) (cast t z) z.
Proof.
  unfold cast. destruct (is_signed t).
  - apply signed_same_bits, bits_pos.
  - apply unsigned_same_bits.
Qed.

(** A conversion looks at the bit pattern only. *)
Lemma cast_congr (t : ctype) (a b : Z) :
  same_bits (bits t) a b -> cast t a = cast t b.
Proof.
  unfold same_bits, cast, signed, unsigned. intros H.
  pose proof (bits_pos t) as Hw.
  destruct (is_signed t); [|exact H].
  f_equal. rewrite (Zplus_mod a), (Zplus_mod b), H. reflexivity.
Qed.

Lemma typed_range (t : ctype) (v : Z) :
  typed t v <->
  if is_signed t then - 2 ^ (bits t - 1) <= v < 2 ^ (bits t - 1)
  else 0 <= v < 2 ^ bits t.
Proof. unfold typed, min_value, max_value. destruct (is_signed t); lia. Qed.

Lemma pow_bits_half (t : ctype) : 2 ^ bits t = 2 * 2 ^ (bits t - 1).
Proof.
  pose proof (bits_pos t).
  replace (bits t) with (1 + (bits t - 1)) at 1 by lia.
  rewrite Z.pow_add_r by lia. reflexivity.
Qed.

(** A value of type [t] is unchanged by the conversion to [t]. *)
Lemma cast_typed (t : ctype) (v : Z) : typed t v -> cast t v = v.
Proof.
  rewrite typed_range. unfold cast, signed, unsigned.
  pose proof (pow_bits_half t) as Hh.
  destruct (is_signed t); intros H.
  - rewrite Z.mod_small by lia. lia.
  - apply Z.mod_small. lia.
Qed.

(** A conversion to [t] yields a value of type [t]. *)
Lemma typed_cast (t : ctype) (z : Z) : typed t (cast t z).
Proof.
  rewrite typed_range. unfold cast, signed, unsigned.
  pose proof (pow_bits_half t) as Hh. pose proof (bits_pos t) as Hw.
  assert (Hp : 0 < 2 ^ bits t) by (apply Z.pow_pos_nonneg; lia).
  destruct (is_signed t).
  - pose proof (Z.mod_pos_bound (z + 2 ^ (bits t - 1)) _ Hp). lia.
  - apply Z.mod_pos_bound. lia.
Qed.

(** Values of one type with the same bits are equal. *)
Lemma typed_same_bits_eq (t : ctype) (a b : Z) :
  typed t a -> typed t b -> same_bits (bits t) a b -> a = b.
Proof.
  intros Ha Hb H. rewrite <- (cast_typed t a Ha), <- (cast_typed t b Hb).
  now apply cast_congr.
Qed.

(** Converting twice between types of one width is converting once. *)
Lemma cast_cast (t1 t2 : ctype) (z : Z) :
  sizeof t1 = sizeof t2 -> cast t2 (cast t1 z) = cast t2 z.
Proof.
  intros Hs. apply cast_congr.
  replace (bits t2) with (bits t1) by (unfold bits; now rewrite Hs).
  apply cast_same_bits.
Qed.

(** ** Memory *)

Lemma read_bytes_insert_below (n : nat) (a a0 : Z) (b : byte) (m : mem) :
  a0 < a -> read_bytes n a (<[a0 := b]> m) = read_bytes n a m.
Proof.
  revert a. induction n as [|k IH]; intros a Hlt; [reflexivity|].
  simpl. rewrite lookup_insert_ne by lia. rewrite IH by lia. reflexivity.
Qed.

Lemma write_bytes_lookup_below (bs : list byte) (a a0 : Z) (m m' : mem) :
  write_bytes bs a m = Some m' -> a0 < a -> m' !! a0 = m !! a0.
Proof.
  revert a m. induction bs as [|b bs IH]; intros a m Hw Hlt; simpl in Hw.
  - now inversion Hw.
  - destruct (m !! a) as [old|]; [|discriminate].
    rewrite (IH _ _ Hw) by lia. apply lookup_insert_ne. lia.
Qed.

(** Bytes written are the bytes read back. *)
Lemma read_write_bytes (bs : list byte) (a : Z) (m m' : mem) :
  write_bytes bs a m = Some m' -> read_bytes (length bs) a m' = Some bs.
Proof.
  revert a m. induction bs as [|b bs IH]; intros a m Hw; [reflexivity|].
  simpl in Hw. destruct (m !! a) as [old|]; [|discriminate].
  simpl. rewrite (write_bytes_lookup_below _ _ a _ _ Hw) by lia.
  rewrite lookup_insert_eq, (IH _ _ Hw). reflexivity.
Qed.

(** A write succeeds on every range that can be read. *)
Lemma write_bytes_defined (bs : list byte) (a : Z) (m : mem) :
  is_Some (read_bytes (length bs) a m) -> is_Some (write_bytes bs a m).
Proof.
  revert a m. induction bs as [|b bs IH]; intros a m [rs Hr]; [now eexists|].
  simpl in *. destruct (m !! a) as [old|]; [|discriminate].
  apply IH. rewrite read_bytes_insert_below by lia.
  destruct (read_bytes (length bs) (a + 1) m); [now eexists | discriminate].
Qed.

Lemma read_bytes_length (n : nat) (a : Z) (m : mem) (bs : list byte) :
  read_bytes n a m = Some bs -> length bs = n.
Proof.
  revert a bs. induction n as [|k IH]; intros a bs; simpl.
  - now intros [= <-].
  - destruct (m !! a) as [b|]; [|discriminate].
    destruct (read_bytes k (a + 1) m) as [bs'|] eqn:Hr; [|discriminate].
    intros [= <-]. simpl. now rewrite (IH _ _ Hr).
Qed.

(** The bits of a location are those of the value it holds. *)
Lemma holds_pattern (t : ctype) (p v : Z) (m : mem) :
  holds t p m = Some v -> pattern t p m = Some (v mod 2 ^ bits t).
Proof.
  unfold holds, pattern. destruct (aligned t p); [|discriminate].
  destruct (read_bytes (sizeof t) p m) as [bs|] eqn:Hr; [|discriminate].
  intros [= <-]. f_equal.
  pose proof (decode_be_range bs) as Hd.
  rewrite (read_bytes_length _ _ _ _ Hr) in Hd. fold (bits t) in Hd.
  pose proof (cast_same_bits t (decode_be bs)) as Hc. unfold same_bits in Hc.
  rewrite Hc. symmetry. now apply Z.mod_small.
Qed.

(** An assignment to a mapped location succeeds, and the location then
    holds the assigned value converted to its type. *)
Lemma holds_assign (t : ctype) (p v : Z) (m : mem) :
  is_Some (holds t p m) ->
  exists m', assign t p v m = Some (tt, m') /\ holds t p m' = Some (cast t v).
Proof.
  intros [old Hold]. unfold holds in Hold. unfold assign, holds.
  destruct (aligned t p); [|discriminate].
  destruct (write_bytes_defined (encode_be (sizeof t) v) p m) as [m' Hw].
  { rewrite length_encode_be.
    destruct (read_bytes (sizeof t) p m); [now eexists | discriminate]. }
  exists m'. rewrite Hw. split; [reflexivity|].
  apply read_write_bytes in Hw. rewrite length_encode_be in Hw. rewrite Hw.
  rewrite decode_encode_be. f_equal. apply cast_congr.
  unfold same_bits. fold (bits t). apply Zmod_mod.
Qed.

(** Reading a location at another type of the same width converts the
    value. *)
Lemma holds_reinterpret (t1 t2 : ctype) (p v : Z) (m : mem) :
  sizeof t1 = sizeof t2 -> holds t1 p m = Some v -> holds t2 p m = Some (cast t2 v).
Proof.
  unfold holds, aligned. intros Hs. rewrite <- Hs.
  destruct (p mod Z.of_nat (sizeof t1) =? 0); [|discriminate].
  destruct (read_bytes (sizeof t1) p m) as [bs|]; [|discriminate].
  intros [= <-]. now rewrite cast_cast.
Qed.

(** What a location holds is a value of its type. *)
Lemma holds_typed (t : ctype) (p v : Z) (m : mem) :
  holds t p m = Some v -> typed t v.
Proof.
  unfold holds. destruct (aligned t p); [|discriminate].
  destruct (read_bytes (sizeof t) p m); [|discriminate].
  intros [= <-]. apply typed_cast.
Qed.

(** An assignment writes the bit pattern, whatever the type says about
    its sign. *)
Lemma assign_same_bits (t1 t2 : ctype) (p v1 v2 : Z) (m : mem) :
  sizeof t1 = sizeof t2 -> same_bits (bits t1) v1 v2 ->
  assign t1 p v1 m = assign t2 p v2 m.
Proof.
  intros Hs Hb. unfold assign, aligned. rewrite <- Hs.
  now rewrite (encode_be_same_bits _ v1 v2).
Qed.

(** ** The modelled primitives *)

Lemma swap_holds (t : ctype) (p old new : Z) (m : mem) :
  holds t p m = Some old ->
  exists m', swap t new p m = Some (old, m') /\ holds t p m' = Some (cast t new).
Proof.
  intros Hold.
  destruct (holds_assign t p new m) as (m' & Ha & Hh); [eexists; exact Hold|].
  exists m'. unfold swap, bind, deref, ret. now rewrite Hold, Ha.
Qed.

Lemma cas_hit (t : ctype) (p old new : Z) (m : mem) :
  holds t p m = Some old ->
  exists m', cas t new p old m = Some (old, m') /\ holds t p m' = Some (cast t new).
Proof.
  intros Hold.
  destruct (holds_assign t p new m) as (m' & Ha & Hh); [eexists; exact Hold|].
  exists m'. unfold cas, bind, deref, ret.
  now rewrite Hold, Z.eqb_refl, Ha.
Qed.

Lemma cas_miss (t : ctype) (p old new expected : Z) (m : mem) :
  holds t p m = Some old -> expected <> old ->
  cas t new p expected m = Some (old, m).
Proof.
  intros Hold Hne. unfold cas, bind, deref, ret. rewrite Hold.
  destruct (Z.eqb_spec old expected); [congruence | reflexivity].
Qed.

Lemma fetch_add_holds (t : ctype) (p old delta : Z) (m : mem) :
  holds t p m = Some old ->
  exists m', fetch_add t delta p m = Some (cast t (old + delta), m') /\
             holds t p m' = Some (cast t (old + delta)).
Proof.
  intros Hold.
  destruct (holds_assign t p (cast t (old + delta)) m) as (m' & Ha & Hh);
    [eexists; exact Hold|].
  exists m'. unfold fetch_add, bind, deref, ret. rewrite Hold, Ha.
  split; [reflexivity|]. rewrite Hh. f_equal.
  apply cast_typed, typed_cast.
Qed.

(** The primitives seen through a pointer of another type of the same
    width, as the [void*] and [jlong] overloads use them: arguments are
    converted to the primitive's type [u], the result back to [t]. *)
Section Views.

Variables t u : ctype.
Hypothesis same_size : sizeof t = sizeof u.

Lemma cast_back (v : Z) : typed t v -> cast t (cast u v) = v.
Proof.
  intros Hv. rewrite cast_cast by (symmetry; exact same_size).
  now apply cast_typed.
Qed.

Lemma cast_inj (a b : Z) : typed t a -> typed t b -> cast u a = cast u b -> a = b.
Proof.
  intros Ha Hb H. rewrite <- (cast_back a Ha), <- (cast_back b Hb).
  now rewrite H.
Qed.

Lemma cast_sum (a b : Z) : cast t (cast u a + cast u b) = cast t (a + b).
Proof.
  apply cast_congr. unfold same_bits.
  assert (Hw : bits t = bits u) by (unfold bits; now rewrite same_size).
  pose proof (cast_same_bits u a) as Ha. pose proof (cast_same_bits u b) as Hb.
  unfold same_bits in Ha, Hb. rewrite Hw.
  rewrite Zplus_mod, Ha, Hb, <- Zplus_mod. reflexivity.
Qed.

Lemma swap_view (p old new : Z) (m : mem) :
  typed t new -> holds t p m = Some old ->
  exists m', (let* r := swap u (cast u new) p in ret (cast t r)) m = Some (old, m') /\
             holds t p m' = Some new.
Proof.
  intros Hn Hold.
  pose proof (holds_typed _ _ _ _ Hold) as Ho.
  apply (holds_reinterpret t u) in Hold; [|exact same_size].
  destruct (swap_holds u p _ (cast u new) m Hold) as (m' & Hs & Hh).
  exists m'. unfold bind, ret. rewrite Hs, (cast_back old Ho).
  split; [reflexivity|].
  apply (holds_reinterpret u t) in Hh; [|symmetry; exact same_size].
  rewrite Hh. f_equal.
  rewrite (cast_typed u) by apply typed_cast. now apply cast_back.
Qed.

Lemma cas_view_hit (p old new : Z) (m : mem) :
  typed t new -> holds t p m = Some old ->
  exists m', (let* r := cas u (cast u new) p (cast u old) in ret (cast t r)) m
             = Some (old, m') /\
             holds t p m' = Some new.
Proof.
  intros Hn Hold.
  pose proof (holds_typed _ _ _ _ Hold) as Ho.
  apply (holds_reinterpret t u) in Hold; [|exact same_size].
  destruct (cas_hit u p _ (cast u new) m Hold) as (m' & Hs & Hh).
  exists m'. unfold bind, ret. rewrite Hs, (cast_back old Ho).
  split; [reflexivity|].
  apply (holds_reinterpret u t) in Hh; [|symmetry; exact same_size].
  rewrite Hh. f_equal.
  rewrite (cast_typed u) by apply typed_cast. now apply cast_back.
Qed.

Lemma cas_view_miss (p old new expected : Z) (m : mem) :
  typed t expected -> holds t p m = Some old -> expected <> old ->
  (let* r := cas u (cast u new) p (cast u expected) in ret (cast t r)) m
  = Some (old, m).
Proof.
  intros He Hold Hne.
  pose proof (holds_typed _ _ _ _ Hold) as Ho.
  apply (holds_reinterpret t u) in Hold; [|exact same_size].
  unfold bind, ret. rewrite (cas_miss u p _ _ _ m Hold).
  - rewrite (cast_back old Ho). reflexivity.
  - intros H. apply Hne. now apply cast_inj.
Qed.

Lemma fetch_add_view (p old delta : Z) (m : mem) :
  holds t p m = Some old ->
  exists m', (let* r := fetch_add u (cast u delta) p in ret (cast t r)) m
             = Some (cast t (old + delta), m') /\
             holds t p m' = Some (cast t (old + delta)).
Proof.
  intros Hold.
  apply (holds_reinterpret t u) in Hold; [|exact same_size].
  destruct (fetch_add_holds u p _ (cast u delta) m Hold) as (m' & Hs & Hh).
  assert (Hc : cast t (cast u (cast u old + cast u delta)) = cast t (old + delta)).
  { rewrite cast_cast by (symmetry; exact same_size). apply cast_sum. }
  exists m'. unfold bind, ret. rewrite Hs, Hc.
  split; [reflexivity|].
  apply (holds_reinterpret u t) in Hh; [|symmetry; exact same_size].
  now rewrite Hh, Hc.
Qed.

End Views.

(** * The operations of the facade *)

(** C1. On the primitives the specification describes, every overload of
    [cmpxchg] and [cmpxchg_ptr] (32-bit, 64-bit, pointer-width integer,
    raw pointer), called with the expected value [V] that the location
    [L] holds, returns [V] and leaves [L] holding the new value [N];
    called with an expected value [E] different from the contents, it
    returns the contents and leaves the memory as it was.  What is
    returned is the prior value in both cases. *)
Theorem cmpxchg_returns_prior_value
    (order : Type) (t : ctype) (op : Z -> Z -> Z -> order -> M Z)
    (m : mem) (L V N E : Z) (o : order) :
  In (t, op) (cmpxchg_overloads sparc_il) ->
  typed t N -> typed t E ->
  holds t L m = Some V ->
  (exists m', op N L V o m = Some (V, m') /\ holds t L m' = Some N) /\
  (E <> V -> op N L E o m = Some (V, m)).
Proof.
  intros Hin HN HE HV. pick_overload Hin.
  - (* jint *)
    unfold cmpxchg_jint; simpl. split.
    + destruct (cas_hit jint L V N m HV) as (m' & Hc & Hh).
      exists m'. now rewrite Hc, Hh, cast_typed.
    + intros Hne. now apply cas_miss.
  - (* jlong, through the intptr_t primitive *)
    unfold cmpxchg_jlong; simpl. split.
    + now apply (cas_view_hit jlong intptr_t).
    + intros Hne. now apply (cas_view_miss jlong intptr_t).
  - (* intptr_t *)
    unfold cmpxchg_ptr_intptr; simpl. split.
    + destruct (cas_hit intptr_t L V N m HV) as (m' & Hc & Hh).
      exists m'. now rewrite Hc, Hh, cast_typed.
    + intros Hne. now apply cas_miss.
  - (* void*, through the intptr_t overload *)
    unfold cmpxchg_ptr_voidp, cmpxchg_ptr_intptr; simpl. split.
    + now apply (cas_view_hit void_ptr intptr_t).
    + intros Hne. now apply (cas_view_miss void_ptr intptr_t).
Qed.

(** The raw-pointer overload on [mem0]: the eight bytes at 104 are all
    ones; a successful and a failing compare. *)
Lemma cmpxchg_returns_prior_value_witness :
  (exists m', cmpxchg_ptr_voidp sparc_il 4096 104 (2 ^ 64 - 1) tt mem0
              = Some (2 ^ 64 - 1, m') /\
              holds void_ptr 104 m' = Some 4096) /\
  (0 <> 2 ^ 64 - 1 -> cmpxchg_ptr_voidp sparc_il 4096 104 0 tt mem0
                      = Some (2 ^ 64 - 1, mem0)).
Proof.
  apply (cmpxchg_returns_prior_value unit void_ptr).
  - simpl. tauto.
  - unfold typed. vm_compute. split; discriminate.
  - unfold typed. vm_compute. split; discriminate.
  - vm_compute. reflexivity.
Defined.

(** C2. On the primitives the specification describes, every overload of
    [xchg] and [xchg_ptr] stores the new value [N] into the location and
    returns [P], the value the location held just before. *)
Theorem xchg_returns_prior_value
    (t : ctype) (op : Z -> Z -> M Z) (m : mem) (L P N : Z) :
  In (t, op) (xchg_overloads sparc_il) ->
  typed t N ->
  holds t L m = Some P ->
  exists m', op N L m = Some (P, m') /\ holds t L m' = Some N.
Proof.
  intros Hin HN HP. pick_overload Hin.
  - unfold xchg_jint; simpl.
    destruct (swap_holds jint L P N m HP) as (m' & Hs & Hh).
    exists m'. now rewrite Hs, Hh, cast_typed.
  - unfold xchg_ptr_intptr; simpl.
    destruct (swap_holds intptr_t L P N m HP) as (m' & Hs & Hh).
    exists m'. now rewrite Hs, Hh, cast_typed.
  - unfold xchg_ptr_voidp, xchg_ptr_intptr; simpl.
    now apply (swap_view void_ptr intptr_t).
Qed.

(** The 32-bit overload on [mem0]: the four bytes at 100 spell 5. *)
Lemma xchg_returns_prior_value_witness :
  exists m', xchg_jint sparc_il (-2) 100 mem0 = Some (5, m') /\
             holds jint 100 m' = Some (-2).
Proof.
  apply (xchg_returns_prior_value jint).
  - simpl. tauto.
  - unfold typed. vm_compute. split; discriminate.
  - vm_compute. reflexivity.
Defined.

(** Every overload of [add] and [add_ptr], on the primitives the
    specification describes: the sum converted to the location's type is
    returned and stored. *)
Lemma add_overload_sum
    (t : ctype) (op : Z -> Z -> M Z) (m : mem) (L V D : Z) :
  In (t, op) (add_overloads sparc_il) ->
  holds t L m = Some V ->
  exists m', op D L m = Some (cast t (V + D), m') /\
             holds t L m' = Some (cast t (V + D)).
Proof.
  intros Hin HV. pick_overload Hin.
  - unfold add_jint; simpl. now apply fetch_add_holds.
  - unfold add_ptr_intptr; simpl. now apply fetch_add_holds.
  - unfold add_ptr_voidp, add_ptr_intptr; simpl.
    now apply (fetch_add_view void_ptr intptr_t).
Qed.

(** C3. On the primitives the specification describes, every overload of
    [add] and [add_ptr] returns the value it leaves in the location, and
    that value is the sum of the old contents [V] and the delta [D] in
    the arithmetic of the location's type: the sum converted to the
    type, which is [V + D] itself whenever [V + D] is a value of the
    type.  It is the post-add value, not [V]. *)
Theorem add_returns_new_value
    (t : ctype) (op : Z -> Z -> M Z) (m : mem) (L V D : Z) :
  In (t, op) (add_overloads sparc_il) ->
  holds t L m = Some V ->
  exists r m',
    op D L m = Some (r, m') /\ holds t L m' = Some r /\
    r = cast t (V + D) /\ (typed t (V + D) -> r = V + D).
Proof.
  intros Hin HV.
  destruct (add_overload_sum t op m L V D Hin HV) as (m' & Hop & Hh).
  exists (cast t (V + D)), m'. repeat split; try assumption.
  apply cast_typed.
Qed.

(** The 32-bit overload on [mem0]: 5 + 37 = 42. *)
Lemma add_returns_new_value_witness :
  exists r m',
    add_jint sparc_il 37 100 mem0 = Some (r, m') /\ holds jint 100 m' = Some r /\
    r = cast jint (5 + 37) /\ (typed jint (5 + 37) -> r = 5 + 37).
Proof.
  apply (add_returns_new_value jint).
  - simpl. tauto.
  - vm_compute. reflexivity.
Defined.

(** C4. Whatever the primitives are, [inc] and [inc_ptr] have the effect
    on memory of [add] and [add_ptr] with delta 1, and [dec] and
    [dec_ptr] that of delta -1, for the 32-bit, the pointer-width
    integer and the [void*] overloads; their outcome is the outcome of
    the addition with the returned value dropped. *)
Theorem inc_dec_are_add_discarded (hw : HwAtomics) (L : Z) (m : mem) :
  (same_effect (inc_jint hw L m) (add_jint hw 1 L m) /\
   same_effect (inc_ptr_intptr hw L m) (add_ptr_intptr hw 1 L m) /\
   same_effect (inc_ptr_voidp hw L m) (add_ptr_voidp hw 1 L m) /\
   same_effect (dec_jint hw L m) (add_jint hw (-1) L m) /\
   same_effect (dec_ptr_intptr hw L m) (add_ptr_intptr hw (-1) L m) /\
   same_effect (dec_ptr_voidp hw L m) (add_ptr_voidp hw (-1) L m)) /\
  (inc_jint hw L m = discard (add_jint hw 1 L m) /\
   inc_ptr_intptr hw L m = discard (add_ptr_intptr hw 1 L m) /\
   inc_ptr_voidp hw L m = discard (add_ptr_voidp hw 1 L m) /\
   dec_jint hw L m = discard (add_jint hw (-1) L m) /\
   dec_ptr_intptr hw L m = discard (add_ptr_intptr hw (-1) L m) /\
   dec_ptr_voidp hw L m = discard (add_ptr_voidp hw (-1) L m)).
Proof.
  assert (Hd : forall c : M Z,
             (let* _ := c in ret tt) m = discard (c m) /\
             same_effect ((let* _ := c in ret tt) m) (c m)).
  { intros c. unfold same_effect, discard, map_result, final_state, bind, ret.
    destruct (c m) as [[r m']|]; split; reflexivity. }
  unfold inc_jint, inc_ptr_intptr, inc_ptr_voidp,
         dec_jint, dec_ptr_intptr, dec_ptr_voidp.
  repeat split; apply Hd.
Qed.

(** [inc] on the value 5 of [mem0] and on the all-ones pointer. *)
Example inc_jint_mem0 :
  same_effect (inc_jint sparc_il 100 mem0) (store_jint 6 100 mem0) /\
  same_effect (inc_ptr_voidp sparc_il 104 mem0) (store_ptr_voidp 0 104 mem0).
Proof. split; vm_compute; reflexivity. Qed.

(** An overload that converts the result of a 64-bit operation to its own
    64-bit type has the outcome of that operation. *)
Lemma cast_forwards (t : ctype) (c : M Z) (m : mem) :
  bits t = 64 ->
  bit_identical ((let* r := c in ret (cast t r)) m) (c m).
Proof.
  intros Hw. unfold bit_identical, bind, ret.
  destruct (c m) as [[r m']|]; [|exact I].
  split; [|reflexivity]. rewrite <- Hw. apply cast_same_bits.
Qed.

Lemma voidp_forwards (c : M Z) (m : mem) :
  bit_identical ((let* r := c in ret (cast void_ptr r)) m) (c m).
Proof. now apply cast_forwards. Qed.

Lemma bit_identical_sym (r1 r2 : option (Z * mem)) :
  bit_identical r1 r2 -> bit_identical r2 r1.
Proof.
  unfold bit_identical, same_bits.
  destruct r1 as [[v1 m1]|], r2 as [[v2 m2]|]; try tauto.
  intros [H1 H2]. now split.
Qed.

Lemma bit_identical_trans (r1 r2 r3 : option (Z * mem)) :
  bit_identical r1 r2 -> bit_identical r2 r3 -> bit_identical r1 r3.
Proof.
  unfold bit_identical, same_bits.
  destruct r1 as [[v1 m1]|], r2 as [[v2 m2]|], r3 as [[v3 m3]|]; try tauto.
  intros [H1 H2] [H3 H4]. split; congruence.
Qed.

(** The conversion to [intptr_t] of a pointer is the [intptr_t] with the
    same bits. *)
Lemma cast_intptr_same_bits (p i : Z) :
  typed intptr_t i -> same_bits 64 p i -> cast intptr_t p = i.
Proof.
  intros Hi Hb. rewrite <- (cast_typed intptr_t i Hi).
  now apply cast_congr.
Qed.

(** C5. Whatever the primitives are, each operation with a [void*] and
    an [intptr_t] overload ([store_ptr], [add_ptr], [xchg_ptr],
    [cmpxchg_ptr], [inc_ptr], [dec_ptr]) behaves the same through both
    on the same memory, given pointer arguments [p], [c] and integer
    arguments [i], [ci] with the same 64-bit patterns: the outcomes are
    defined together, leave the same memory, and return values with the
    same 64-bit pattern. *)
Theorem pointer_overloads_forward
    (hw : HwAtomics) (order : Type) (o : order)
    (L p c i ci d : Z) (m : mem) :
  typed void_ptr p -> typed void_ptr c ->
  typed intptr_t i -> typed intptr_t ci -> typed intptr_t d ->
  same_bits 64 p i -> same_bits 64 c ci ->
  store_ptr_voidp p L m = store_ptr_intptr i L m /\
  bit_identical (add_ptr_voidp hw d L m) (add_ptr_intptr hw d L m) /\
  bit_identical (xchg_ptr_voidp hw p L m) (xchg_ptr_intptr hw i L m) /\
  bit_identical (cmpxchg_ptr_voidp hw p L c o m) (cmpxchg_ptr_intptr hw i L ci o m) /\
  inc_ptr_voidp hw L m = inc_ptr_intptr hw L m /\
  dec_ptr_voidp hw L m = dec_ptr_intptr hw L m.
Proof.
  intros Hp Hc Hi Hci Hd Hpi Hcci.
  assert (Hdrop : forall (k : M Z) (m0 : mem),
             (let* _ := (let* r := k in ret (cast void_ptr r)) in ret tt) m0
             = (let* _ := k in ret tt) m0).
  { intros k m0. unfold bind, ret. now destruct (k m0) as [[r m']|]. }
  repeat split.
  - unfold store_ptr_voidp, store_ptr_intptr.
    now apply assign_same_bits.
  - unfold add_ptr_voidp. rewrite (cast_typed intptr_t d Hd).
    apply voidp_forwards.
  - unfold xchg_ptr_voidp. rewrite (cast_intptr_same_bits p i Hi Hpi).
    apply voidp_forwards.
  - unfold cmpxchg_ptr_voidp.
    rewrite (cast_intptr_same_bits p i Hi Hpi), (cast_intptr_same_bits c ci Hci Hcci).
    apply voidp_forwards.
  - unfold inc_ptr_voidp, inc_ptr_intptr, add_ptr_voidp.
    change (cast intptr_t 1) with 1. apply Hdrop.
  - unfold dec_ptr_voidp, dec_ptr_intptr, add_ptr_voidp.
    change (cast intptr_t (-1)) with (-1). apply Hdrop.
Qed.

(** The pointer of all ones and the integer -1 on [mem0]. *)
Lemma pointer_overloads_forward_witness :
  store_ptr_voidp (2 ^ 64 - 1) 96 mem0 = store_ptr_intptr (-1) 96 mem0 /\
  bit_identical (add_ptr_voidp sparc_il 3 96 mem0) (add_ptr_intptr sparc_il 3 96 mem0) /\
  bit_identical (xchg_ptr_voidp sparc_il (2 ^ 64 - 1) 96 mem0)
                (xchg_ptr_intptr sparc_il (-1) 96 mem0) /\
  bit_identical (cmpxchg_ptr_voidp sparc_il (2 ^ 64 - 1) 96 5 tt mem0)
                (cmpxchg_ptr_intptr sparc_il (-1) 96 5 tt mem0) /\
  inc_ptr_voidp sparc_il 96 mem0 = inc_ptr_intptr sparc_il 96 mem0 /\
  dec_ptr_voidp sparc_il 96 mem0 = dec_ptr_intptr sparc_il 96 mem0.
Proof.
  apply (pointer_overloads_forward sparc_il unit tt 96 (2 ^ 64 - 1) 5 (-1) 5 3 mem0).
  - unfold typed. vm_compute. split; discriminate.
  - unfold typed. vm_compute. split; discriminate.
  - unfold typed. vm_compute. split; discriminate.
  - unfold typed. vm_compute. split; discriminate.
  - unfold typed. vm_compute. split; discriminate.
  - vm_compute. reflexivity.
  - vm_compute. reflexivity.
Defined.

(** C6. Whatever the primitives are, two calls of an overload of
    [cmpxchg] or [cmpxchg_ptr] that differ in the ordering argument only
    have the same outcome: the same returned value and the same memory
    afterwards. *)
Theorem cmpxchg_ignores_order
    (hw : HwAtomics) (order : Type) (t : ctype)
    (op : Z -> Z -> Z -> order -> M Z) (N L V : Z) (o1 o2 : order) (m : mem) :
  In (t, op) (cmpxchg_overloads hw) ->
  op N L V o1 m = op N L V o2 m.
Proof.
  intros Hin. pick_overload Hin; reflexivity.
Qed.

(** The 64-bit overload with a two-valued ordering type. *)
Lemma cmpxchg_ignores_order_witness :
  cmpxchg_jlong sparc_il 7 96 5 true mem0 = cmpxchg_jlong sparc_il 7 96 5 false mem0.
Proof.
  apply (cmpxchg_ignores_order sparc_il bool jlong).
  simpl. tauto.
Defined.

(** C7. A 64-bit [store] of [N] to a mapped location followed by the
    64-bit [load] of that location returns [N]. *)
Theorem store_load_jlong (m : mem) (L N : Z) :
  typed jlong N ->
  is_Some (holds jlong L m) ->
  exists m', store_jlong N L m = Some (tt, m') /\
             load_jlong L m' = Some (N, m') /\
             (let* _ := store_jlong N L in load_jlong L) m = Some (N, m').
Proof.
  intros HN Hmapped.
  destruct (holds_assign jlong L N m Hmapped) as (m' & Ha & Hh).
  rewrite (cast_typed jlong N HN) in Hh.
  assert (Hl : load_jlong L m' = Some (N, m')).
  { unfold load_jlong, deref. now rewrite Hh. }
  exists m'. unfold store_jlong, bind. rewrite Ha. auto.
Qed.

Lemma store_load_jlong_witness :
  exists m', store_jlong (- 2 ^ 40) 104 mem0 = Some (tt, m') /\
             load_jlong 104 m' = Some (- 2 ^ 40, m') /\
             (let* _ := store_jlong (- 2 ^ 40) 104 in load_jlong 104) mem0
             = Some (- 2 ^ 40, m').
Proof.
  apply (store_load_jlong mem0 104 (- 2 ^ 40)).
  - unfold typed. vm_compute. split; discriminate.
  - exists (-1). vm_compute. reflexivity.
Defined.

Lemma typed_min_value (t : ctype) : typed t (min_value t).
Proof. destruct t; vm_compute; split; discriminate. Qed.

Lemma typed_max_value (t : ctype) : typed t (max_value t).
Proof. destruct t; vm_compute; split; discriminate. Qed.

(** Every overload of [store] and [store_ptr] leaves a mapped location
    holding the stored value. *)
Lemma store_overload_holds
    (t : ctype) (op : Z -> Z -> M unit) (m : mem) (L v : Z) :
  In (t, op) store_overloads ->
  typed t v ->
  is_Some (holds t L m) ->
  exists m', op v L m = Some (tt, m') /\ holds t L m' = Some v.
Proof.
  intros Hin Hv Hm.
  destruct (holds_assign t L v m Hm) as (m' & Ha & Hh).
  rewrite (cast_typed t v Hv) in Hh.
  exists m'. split; [|exact Hh].
  pick_overload Hin; exact Ha.
Qed.

(** C8. The least and the greatest value of each type (8, 16, 32 and 64
    bits, pointer-width integer, pointer) are what a mapped location
    holds after a [store] of them, and what the 64-bit [load] returns;
    on the primitives the specification describes, every overload of
    [add] leaves a value of the location's type that is congruent to
    [V + D] modulo two to the width, so that one more than the greatest
    value is the least; and a 32-bit [add] leaves the location holding
    [V + D] modulo [2 ^ 32]: that number is what its four bytes spell. *)
Theorem boundary_values_and_wraparound
    (t : ctype) (m : mem) (L V D v : Z) :
  (forall op, In (t, op) store_overloads ->
     v = min_value t \/ v = max_value t ->
     is_Some (holds t L m) ->
     exists m', op v L m = Some (tt, m') /\ holds t L m' = Some v /\
                (t = jlong -> load_jlong L m' = Some (v, m'))) /\
  (forall op, In (t, op) (add_overloads sparc_il) ->
     holds t L m = Some V ->
     exists r m', op D L m = Some (r, m') /\ holds t L m' = Some r /\
                  typed t r /\ r mod 2 ^ bits t = (V + D) mod 2 ^ bits t /\
                  (V = max_value t -> D = 1 -> r = min_value t) /\
                  (V = min_value t -> D = -1 -> r = max_value t)) /\
  (holds jint L m = Some V ->
     exists r m', add_jint sparc_il D L m = Some (r, m') /\
                  holds jint L m' = Some r /\
                  r mod 2 ^ 32 = (V + D) mod 2 ^ 32 /\
                  pattern jint L m' = Some ((V + D) mod 2 ^ 32)).
Proof.
  split; [|split].
  - intros op Hin Hv Hm.
    assert (Ht : typed t v)
      by (destruct Hv as [-> | ->]; [apply typed_min_value | apply typed_max_value]).
    destruct (store_overload_holds t op m L v Hin Ht Hm) as (m' & Hs & Hh).
    exists m'. repeat split; try assumption.
    intros ->. unfold load_jlong, deref. now rewrite Hh.
  - intros op Hin HV.
    destruct (add_overload_sum t op m L V D Hin HV) as (m' & Hop & Hh).
    exists (cast t (V + D)), m'. repeat split; try assumption.
    + apply typed_cast.
    + apply typed_cast.
    + apply cast_same_bits.
    + intros -> ->. pick_overload Hin; reflexivity.
    + intros -> ->. pick_overload Hin; reflexivity.
  - intros HV.
    destruct (fetch_add_holds jint L V D m HV) as (m' & Hop & Hh).
    pose proof (cast_same_bits jint (V + D)) as Hb. unfold same_bits in Hb.
    exists (cast jint (V + D)), m'. repeat split; try assumption.
    apply holds_pattern in Hh. rewrite Hh. f_equal. exact Hb.
Qed.

(** On [mem0]: the greatest [jint] stored at 100, and the 32-bit [add] of
    [2 ^ 31 - 1] to the 5 that is there. *)
Lemma boundary_values_and_wraparound_witness :
  (exists m', store_jint (2 ^ 31 - 1) 100 mem0 = Some (tt, m') /\
              holds jint 100 m' = Some (2 ^ 31 - 1) /\
              (jint = jlong -> load_jlong 100 m' = Some (2 ^ 31 - 1, m'))) /\
  (exists r m', add_jint sparc_il (2 ^ 31 - 1) 100 mem0 = Some (r, m') /\
                holds jint 100 m' = Some r /\
                typed jint r /\
                r mod 2 ^ bits jint = (5 + (2 ^ 31 - 1)) mod 2 ^ bits jint /\
                (5 = max_value jint -> 2 ^ 31 - 1 = 1 -> r = min_value jint) /\
                (5 = min_value jint -> 2 ^ 31 - 1 = -1 -> r = max_value jint)) /\
  (exists r m', add_jint sparc_il (2 ^ 31 - 1) 100 mem0 = Some (r, m') /\
                holds jint 100 m' = Some r /\
                r mod 2 ^ 32 = (5 + (2 ^ 31 - 1)) mod 2 ^ 32 /\
                pattern jint 100 m' = Some ((5 + (2 ^ 31 - 1)) mod 2 ^ 32)).
Proof.
  destruct (boundary_values_and_wraparound jint mem0 100 5 (2 ^ 31 - 1) (2 ^ 31 - 1))
    as (Hstore & Hany & Hadd).
  split; [|split].
  - apply (Hstore store_jint).
    + simpl. tauto.
    + right. reflexivity.
    + exists 5. vm_compute. reflexivity.
  - apply (Hany (add_jint sparc_il)).
    + simpl. tauto.
    + vm_compute. reflexivity.
  - apply Hadd. vm_compute. reflexivity.
Defined.

(** The wrapped sum itself, on [mem0]. *)
Example add_jint_wraps :
  map_result id (add_jint sparc_il (2 ^ 31 - 1) 100 mem0)
  = map_result (fun _ => - 2 ^ 31 + 4) (store_jint (- 2 ^ 31 + 4) 100 mem0).
Proof. vm_compute. reflexivity. Qed.

(** C9. Whatever the primitives are, the [jlong] overload of [cmpxchg]
    has the outcome of [cmpxchg_ptr], in its [intptr_t] and its [void*]
    overload, on arguments with the same 64-bit patterns and the same
    memory: defined together, same memory afterwards, returned values
    with the same 64 bits.  And no operation of the facade depends on
    [_Atomic_casl]: replacing that primitive by any other leaves every
    operation that reaches a primitive unchanged. *)
Theorem cmpxchg_jlong_is_cmpxchg_ptr
    (hw : HwAtomics) (order : Type) (o o' : order)
    (L e c ie ic pe pc : Z) (m : mem) :
  typed jlong e -> typed jlong c ->
  typed intptr_t ie -> typed intptr_t ic ->
  typed void_ptr pe -> typed void_ptr pc ->
  same_bits 64 e ie -> same_bits 64 c ic ->
  same_bits 64 e pe -> same_bits 64 c pc ->
  bit_identical (cmpxchg_jlong hw e L c o m) (cmpxchg_ptr_intptr hw ie L ic o' m) /\
  bit_identical (cmpxchg_jlong hw e L c o m) (cmpxchg_ptr_voidp hw pe L pc o' m) /\
  (forall f : Z -> Z -> Z -> M Z,
     add_overloads (with_casl f hw) = add_overloads hw /\
     xchg_overloads (with_casl f hw) = xchg_overloads hw /\
     cmpxchg_overloads (cmpxchg_memory_order := order) (with_casl f hw)
     = cmpxchg_overloads hw /\
     inc_jint (with_casl f hw) = inc_jint hw /\
     inc_ptr_intptr (with_casl f hw) = inc_ptr_intptr hw /\
     inc_ptr_voidp (with_casl f hw) = inc_ptr_voidp hw /\
     dec_jint (with_casl f hw) = dec_jint hw /\
     dec_ptr_intptr (with_casl f hw) = dec_ptr_intptr hw /\
     dec_ptr_voidp (with_casl f hw) = dec_ptr_voidp hw).
Proof.
  intros He Hc Hie Hic Hpe Hpc Hbe Hbc Hbpe Hbpc.
  assert (Hjl : bit_identical (cmpxchg_jlong hw e L c o m)
                              (cmpxchg_ptr_intptr hw ie L ic o' m)).
  { unfold cmpxchg_jlong, cmpxchg_ptr_intptr.
    rewrite (cast_intptr_same_bits e ie Hie Hbe), (cast_intptr_same_bits c ic Hic Hbc).
    now apply cast_forwards. }
  split; [exact Hjl|]. split.
  - apply (bit_identical_trans _ _ _ Hjl), bit_identical_sym.
    unfold cmpxchg_ptr_voidp.
    rewrite (cast_intptr_same_bits pe ie Hie), (cast_intptr_same_bits pc ic Hic).
    + apply voidp_forwards.
    + unfold same_bits in *. congruence.
    + unfold same_bits in *. congruence.
  - intros f. repeat split.
Qed.

(** On [mem0], with the wide-int primitive replaced by one that is
    undefined everywhere. *)
Lemma cmpxchg_jlong_is_cmpxchg_ptr_witness :
  bit_identical (cmpxchg_jlong sparc_il (-1) 96 5 true mem0)
                (cmpxchg_ptr_intptr sparc_il (-1) 96 5 false mem0) /\
  bit_identical (cmpxchg_jlong sparc_il (-1) 96 5 true mem0)
                (cmpxchg_ptr_voidp sparc_il (2 ^ 64 - 1) 96 5 false mem0) /\
  cmpxchg_overloads (cmpxchg_memory_order := bool)
    (with_casl (fun _ _ _ _ => None) sparc_il)
  = cmpxchg_overloads sparc_il.
Proof.
  destruct (cmpxchg_jlong_is_cmpxchg_ptr sparc_il bool true false
              96 (-1) 5 (-1) 5 (2 ^ 64 - 1) 5 mem0)
    as (H1 & H2 & H3).
  - unfold typed. vm_compute. split; discriminate.
  - unfold typed. vm_compute. split; discriminate.
  - unfold typed. vm_compute. split; discriminate.
  - unfold typed. vm_compute. split; discriminate.
  - unfold typed. vm_compute. split; discriminate.
  - unfold typed. vm_compute. split; discriminate.
  - vm_compute. reflexivity.
  - vm_compute. reflexivity.
  - vm_compute. reflexivity.
  - vm_compute. reflexivity.
  - split; [exact H1|]. split; [exact H2|].
    apply (H3 (fun _ _ _ _ => None)).
Defined.

(** C10. On the primitives the specification describes, [inc_ptr] and
    [dec_ptr] on a [void*] location that holds the pointer [P] leave it
    holding [P + 1] and [P - 1] as 64-bit patterns, a step of one and
    not of a pointee size; and whatever the primitives are, their effect
    on memory is that of the [intptr_t] overload of [add_ptr] with delta
    1 and -1 at the same address. *)
Theorem inc_dec_ptr_step_is_one (m : mem) (L P : Z) :
  holds void_ptr L m = Some P ->
  (exists m', inc_ptr_voidp sparc_il L m = Some (tt, m') /\
              holds void_ptr L m' = Some ((P + 1) mod 2 ^ 64) /\
              (P < max_value void_ptr -> holds void_ptr L m' = Some (P + 1))) /\
  (exists m', dec_ptr_voidp sparc_il L m = Some (tt, m') /\
              holds void_ptr L m' = Some ((P - 1) mod 2 ^ 64) /\
              (0 < P -> holds void_ptr L m' = Some (P - 1))) /\
  (forall hw : HwAtomics,
     same_effect (inc_ptr_voidp hw L m) (add_ptr_intptr hw 1 L m) /\
     same_effect (dec_ptr_voidp hw L m) (add_ptr_intptr hw (-1) L m)).
Proof.
  intros HP.
  pose proof (holds_typed _ _ _ _ HP) as HtP.
  unfold typed in HtP. change (min_value void_ptr) with 0 in HtP.
  assert (Hstep : forall D,
            exists m', (let* _ := add_ptr_voidp sparc_il D L in ret tt) m = Some (tt, m') /\
                       holds void_ptr L m' = Some ((P + D) mod 2 ^ 64) /\
                       (typed void_ptr (P + D) -> holds void_ptr L m' = Some (P + D))).
  { intros D.
    destruct (add_overload_sum void_ptr (add_ptr_voidp sparc_il) m L P D) as (m' & Hop & Hh);
      [simpl; tauto | exact HP |].
    exists m'. unfold bind, ret. rewrite Hop. repeat split.
    - exact Hh.
    - intros Ht. now rewrite Hh, cast_typed. }
  split; [|split].
  - destruct (Hstep 1) as (m' & Hop & Hh & Hx).
    exists m'. repeat split; try assumption.
    intros Hlt. apply Hx. unfold typed. change (min_value void_ptr) with 0. lia.
  - destruct (Hstep (-1)) as (m' & Hop & Hh & Hx).
    exists m'. repeat split; try assumption.
    intros Hlt. apply Hx. unfold typed. change (min_value void_ptr) with 0. lia.
  - intros hw.
    unfold same_effect, final_state, inc_ptr_voidp, dec_ptr_voidp, add_ptr_voidp, bind, ret.
    change (cast intptr_t 1) with 1. change (cast intptr_t (-1)) with (-1).
    split.
    + now destruct (add_ptr_intptr hw 1 L m) as [[r m']|].
    + now destruct (add_ptr_intptr hw (-1) L m) as [[r m']|].
Qed.

(** On [mem0]: the pointer 5 at address 96. *)
Lemma inc_dec_ptr_step_is_one_witness :
  (exists m', inc_ptr_voidp sparc_il 96 mem0 = Some (tt, m') /\
              holds void_ptr 96 m' = Some ((5 + 1) mod 2 ^ 64) /\
              (5 < max_value void_ptr -> holds void_ptr 96 m' = Some (5 + 1))) /\
  (exists m', dec_ptr_voidp sparc_il 96 mem0 = Some (tt, m') /\
              holds void_ptr 96 m' = Some ((5 - 1) mod 2 ^ 64) /\
              (0 < 5 -> holds void_ptr 96 m' = Some (5 - 1))) /\
  (forall hw : HwAtomics,
     same_effect (inc_ptr_voidp hw 96 mem0) (add_ptr_intptr hw 1 96 mem0) /\
     same_effect (dec_ptr_voidp hw 96 mem0) (add_ptr_intptr hw (-1) 96 mem0)).
Proof.
  apply (inc_dec_ptr_step_is_one mem0 96 5).
  vm_compute. reflexivity.
Defined.

(** The step at the ends of the address range: the all-ones pointer at
    104 wraps to the null pointer. *)
Example inc_ptr_voidp_wraps :
  same_effect (inc_ptr_voidp sparc_il 104 mem0) (store_ptr_voidp 0 104 mem0) /\
  same_effect (dec_ptr_voidp sparc_il 104 mem0) (store_ptr_voidp (2 ^ 64 - 2) 104 mem0).
Proof. split; vm_compute; reflexivity. Qed.

(** * Stores and the load, on the memory alone *)

(** ** More on bytes *)

Section MoreEncoding.

Local Arguments Z.pow : simpl never.
Local Arguments Z.mul : simpl never.
Local Arguments Z.of_nat : simpl never.

Lemma byte_of_Z_of_byte (b : byte) : byte_of_Z (Z_of_byte b) = b.
Proof.
  unfold byte_of_Z. pose proof (Z_of_byte_range b) as Hr.
  rewrite Z.mod_small by exact Hr. unfold Z_of_byte.
  rewrite N2Z.id, Byte.of_to_N. reflexivity.
Qed.

Lemma fold_push_byte_acc (bs : list byte) (acc : Z) :
  fold_left push_byte bs acc
  = acc * 2 ^ (8 * Z.of_nat (length bs)) + decode_be bs.
Proof.
  unfold decode_be. revert acc. induction bs as [|b bs IH]; intros acc.
  - simpl. change (2 ^ (8 * Z.of_nat 0)) with 1. lia.
  - simpl length. rewrite pow_bytes_succ. simpl fold_left.
    rewrite (IH (push_byte acc b)), (IH (push_byte 0 b)).
    unfold push_byte. ring.
Qed.

Lemma decode_be_cons (b : byte) (bs : list byte) :
  decode_be (b :: bs) = Z_of_byte b * 2 ^ (8 * Z.of_nat (length bs)) + decode_be bs.
Proof.
  unfold decode_be at 1. simpl fold_left. rewrite fold_push_byte_acc.
  unfold push_byte. ring.
Qed.

(** Encoding what bytes spell gives the bytes back. *)
Lemma encode_decode_be (bs : list byte) :
  encode_be (length bs) (decode_be bs) = bs.
Proof.
  induction bs as [|b bs IH]; [reflexivity|].
  simpl length. simpl encode_be. rewrite decode_be_cons.
  pose proof (decode_be_range bs) as Hd.
  pose proof (pow_bytes_pos (length bs)) as HP.
  set (P := 2 ^ (8 * Z.of_nat (length bs))) in *.
  f_equal.
  - replace ((Z_of_byte b * P + decode_be bs) / P) with (Z_of_byte b).
    + apply byte_of_Z_of_byte.
    + apply Z.div_unique with (r := decode_be bs); lia.
  - transitivity (encode_be (length bs) (decode_be bs)); [|exact IH].
    apply encode_be_same_bits.
    unfold same_bits. fold P.
    rewrite Z.add_comm, Z.mod_add by lia. reflexivity.
Qed.

End MoreEncoding.

(** ** More on memory *)

Lemma write_bytes_lookup_above (bs : list byte) (a a0 : Z) (m m' : mem) :
  write_bytes bs a m = Some m' -> a + Z.of_nat (length bs) <= a0 ->
  m' !! a0 = m !! a0.
Proof.
  revert a m. induction bs as [|b bs IH]; intros a m Hw Hle; simpl in Hw.
  - now inversion Hw.
  - destruct (m !! a) as [old|]; [|discriminate].
    simpl length in Hle.
    rewrite (IH _ _ Hw) by lia. apply lookup_insert_ne. lia.
Qed.

(** A write changes no byte outside its range. *)
Lemma write_bytes_frame (bs : list byte) (a a0 : Z) (m m' : mem) :
  write_bytes bs a m = Some m' ->
  ~ (a <= a0 < a + Z.of_nat (length bs)) ->
  m' !! a0 = m !! a0.
Proof.
  intros Hw Hout. destruct (Z_lt_le_dec a0 a) as [Hlt|Hge].
  - now apply (write_bytes_lookup_below bs a).
  - apply (write_bytes_lookup_above bs a); [exact Hw | lia].
Qed.

(** A write maps no new address and unmaps none. *)
Lemma write_bytes_dom (bs : list byte) (a : Z) (m m' : mem) :
  write_bytes bs a m = Some m' -> dom m' = dom m.
Proof.
  revert a m. induction bs as [|b bs IH]; intros a m Hw; simpl in Hw.
  - now inversion Hw.
  - destruct (m !! a) as [old|] eqn:Hold; [|discriminate].
    rewrite (IH _ _ Hw). apply dom_insert_lookup_L. eexists; exact Hold.
Qed.

(** Reading looks at the bytes of its range only. *)
Lemma read_bytes_ext (n : nat) (a : Z) (m1 m2 : mem) :
  (forall a0, a <= a0 < a + Z.of_nat n -> m1 !! a0 = m2 !! a0) ->
  read_bytes n a m1 = read_bytes n a m2.
Proof.
  revert a. induction n as [|k IH]; intros a Hext; [reflexivity|].
  simpl. rewrite (Hext a) by lia. rewrite (IH (a + 1)); [reflexivity|].
  intros a0 Ha0. apply Hext. lia.
Qed.

(** A write is defined exactly where a read of its length is. *)
Lemma write_bytes_readable (bs : list byte) (a : Z) (m : mem) :
  is_Some (write_bytes bs a m) -> is_Some (read_bytes (length bs) a m).
Proof.
  revert a m. induction bs as [|b bs IH]; intros a m [m' Hw]; [eexists; reflexivity|].
  simpl in *. destruct (m !! a) as [old|]; [|discriminate].
  destruct (IH (a + 1) (<[a := b]> m)) as [rs Hr]; [eexists; exact Hw|].
  rewrite read_bytes_insert_below in Hr by lia. rewrite Hr. eexists; reflexivity.
Qed.

(** Inside its range a write leaves its bytes, whatever was there. *)
Lemma write_bytes_lookup_in (bs : list byte) (a a0 : Z) (m m' : mem) :
  write_bytes bs a m = Some m' ->
  a <= a0 < a + Z.of_nat (length bs) ->
  m' !! a0 = bs !! Z.to_nat (a0 - a).
Proof.
  revert a m. induction bs as [|b bs IH]; intros a m Hw Hin; simpl in Hw.
  - simpl in Hin. lia.
  - destruct (m !! a) as [old|]; [|discriminate].
    simpl length in Hin.
    destruct (Z.eq_dec a0 a) as [->|Hne].
    + rewrite (write_bytes_lookup_below _ _ a _ _ Hw) by lia.
      rewrite lookup_insert_eq, Z.sub_diag. reflexivity.
    + rewrite (IH _ _ Hw) by lia.
      replace (Z.to_nat (a0 - a)) with (S (Z.to_nat (a0 - (a + 1)))) by lia.
      reflexivity.
Qed.

(** Whether a write is defined depends on the length written only. *)
Lemma write_bytes_defined_length (bs1 bs2 : list byte) (a : Z) (m : mem) :
  length bs1 = length bs2 ->
  is_Some (write_bytes bs1 a m) -> is_Some (write_bytes bs2 a m).
Proof.
  intros Hlen H1. apply write_bytes_defined. rewrite <- Hlen.
  now apply write_bytes_readable.
Qed.

Lemma write_bytes_None_length (bs1 bs2 : list byte) (a : Z) (m : mem) :
  length bs1 = length bs2 ->
  write_bytes bs1 a m = None -> write_bytes bs2 a m = None.
Proof.
  intros Hlen H1. destruct (write_bytes bs2 a m) as [m2|] eqn:H2; [|reflexivity].
  destruct (write_bytes_defined_length bs2 bs1 a m) as [m1 Hm1];
    [now symmetry | eexists; exact H2 | congruence].
Qed.

(** Writing over a write of the same length is writing once. *)
Lemma write_bytes_twice (bs1 bs2 : list byte) (a : Z) (m m1 : mem) :
  length bs1 = length bs2 ->
  write_bytes bs1 a m = Some m1 ->
  write_bytes bs2 a m1 = write_bytes bs2 a m.
Proof.
  intros Hlen Hw1.
  destruct (write_bytes_defined_length bs1 bs2 a m Hlen) as [m2' Hw2'];
    [eexists; exact Hw1|].
  destruct (write_bytes_defined bs2 a m1) as [m2 Hw2].
  { rewrite <- Hlen, (read_write_bytes _ _ _ _ Hw1). eexists; reflexivity. }
  rewrite Hw2, Hw2'. f_equal. apply map_eq. intros a0.
  destruct (decide (a <= a0 < a + Z.of_nat (length bs2))) as [Hin|Hout].
  - now rewrite (write_bytes_lookup_in _ _ _ _ _ Hw2 Hin),
                (write_bytes_lookup_in _ _ _ _ _ Hw2' Hin).
  - rewrite (write_bytes_frame _ _ _ _ _ Hw2 Hout),
            (write_bytes_frame _ _ _ _ _ Hw2' Hout).
    apply (write_bytes_frame bs1 a); [exact Hw1 | now rewrite Hlen].
Qed.

(** Writes to ranges that share no byte can be swapped. *)
Lemma write_bytes_commute (bs1 bs2 : list byte) (a1 a2 : Z) (m : mem) :
  a1 + Z.of_nat (length bs1) <= a2 \/ a2 + Z.of_nat (length bs2) <= a1 ->
  match write_bytes bs1 a1 m with
  | Some m1 => write_bytes bs2 a2 m1
  | None => None
  end
  = match write_bytes bs2 a2 m with
    | Some m2 => write_bytes bs1 a1 m2
    | None => None
    end.
Proof.
  intros Hdis.
  assert (Hkeep : forall (xs ys : list byte) (x y : Z) (m0 m0' : mem),
             x + Z.of_nat (length xs) <= y \/ y + Z.of_nat (length ys) <= x ->
             write_bytes xs x m0 = Some m0' ->
             read_bytes (length ys) y m0' = read_bytes (length ys) y m0).
  { intros xs ys x y m0 m0' Hd Hw. apply read_bytes_ext. intros a0 Ha0.
    apply (write_bytes_frame xs x); [exact Hw | lia]. }
  destruct (write_bytes bs1 a1 m) as [m1|] eqn:H1;
    destruct (write_bytes bs2 a2 m) as [m2|] eqn:H2.
  - destruct (write_bytes_defined bs2 a2 m1) as [m12 H12].
    { rewrite (Hkeep bs1 bs2 a1 a2 m m1 Hdis H1).
      apply write_bytes_readable. eexists; eassumption. }
    destruct (write_bytes_defined bs1 a1 m2) as [m21 H21].
    { rewrite (Hkeep bs2 bs1 a2 a1 m m2 ltac:(tauto) H2).
      apply write_bytes_readable. eexists; eassumption. }
    rewrite H12, H21. f_equal. apply map_eq. intros a0.
    destruct (decide (a1 <= a0 < a1 + Z.of_nat (length bs1))) as [Hin1|Hout1].
    + rewrite (write_bytes_frame _ _ _ _ _ H12) by lia.
      now rewrite (write_bytes_lookup_in _ _ _ _ _ H1 Hin1),
                  (write_bytes_lookup_in _ _ _ _ _ H21 Hin1).
    + rewrite (write_bytes_frame _ _ _ _ _ H21 Hout1).
      destruct (decide (a2 <= a0 < a2 + Z.of_nat (length bs2))) as [Hin2|Hout2].
      * now rewrite (write_bytes_lookup_in _ _ _ _ _ H12 Hin2),
                    (write_bytes_lookup_in _ _ _ _ _ H2 Hin2).
      * rewrite (write_bytes_frame _ _ _ _ _ H12 Hout2),
                (write_bytes_frame _ _ _ _ _ H2 Hout2).
        now apply (write_bytes_frame bs1 a1).
  - destruct (write_bytes bs2 a2 m1) as [m12|] eqn:H12; [|reflexivity].
    exfalso.
    assert (Hr : is_Some (read_bytes (length bs2) a2 m1))
      by (apply write_bytes_readable; eexists; eassumption).
    rewrite (Hkeep bs1 bs2 a1 a2 m m1 Hdis H1) in Hr.
    apply write_bytes_defined in Hr. destruct Hr as [x Hx]. congruence.
  - destruct (write_bytes bs1 a1 m2) as [m21|] eqn:H21; [|reflexivity].
    exfalso.
    assert (Hr : is_Some (read_bytes (length bs1) a1 m2))
      by (apply write_bytes_readable; eexists; eassumption).
    rewrite (Hkeep bs2 bs1 a2 a1 m m2 ltac:(tauto) H2) in Hr.
    apply write_bytes_defined in Hr. destruct Hr as [x Hx]. congruence.
  - reflexivity.
Qed.

(** Writing back the bytes just read changes nothing. *)
Lemma write_bytes_read (bs : list byte) (a : Z) (m : mem) :
  read_bytes (length bs) a m = Some bs -> write_bytes bs a m = Some m.
Proof.
  revert a m. induction bs as [|b bs IH]; intros a m Hr; [reflexivity|].
  simpl in *. destruct (m !! a) as [b0|] eqn:Hb; [|discriminate].
  destruct (read_bytes (length bs) (a + 1) m) as [bs0|] eqn:Hr'; [|discriminate].
  injection Hr as -> ->.
  rewrite insert_id by exact Hb. now apply IH.
Qed.

(** ** The overloads of [store] and [store_ptr], and [load] *)

(** Every overload is the assignment at its type. *)
Lemma store_overload_assign (t : ctype) (op : Z -> Z -> M unit) :
  In (t, op) store_overloads -> forall v L, op v L = assign t L v.
Proof. intros Hin v L. pick_overload Hin; reflexivity. Qed.

(** X1. Every overload of [store] and [store_ptr] (8, 16, 32 and 64
    bits, pointer-width integer, pointer), given any value [v] of its
    type and a mapped location, succeeds and leaves the location holding
    [v]; the bytes of the location then spell [v] modulo two to the
    width. *)
Theorem store_round_trip
    (t : ctype) (op : Z -> Z -> M unit) (m : mem) (L v : Z) :
  In (t, op) store_overloads ->
  typed t v ->
  is_Some (holds t L m) ->
  exists m', op v L m = Some (tt, m') /\
             holds t L m' = Some v /\
             pattern t L m' = Some (v mod 2 ^ bits t).
Proof.
  intros Hin Hv Hm.
  destruct (store_overload_holds t op m L v Hin Hv Hm) as (m' & Hs & Hh).
  exists m'. repeat split; try assumption. now apply holds_pattern.
Qed.

(** The 16-bit overload on [mem0]: -2 at address 102. *)
Lemma store_round_trip_witness :
  exists m', store_jshort (-2) 102 mem0 = Some (tt, m') /\
             holds jshort 102 m' = Some (-2) /\
             pattern jshort 102 m' = Some ((-2) mod 2 ^ bits jshort).
Proof.
  apply (store_round_trip jshort).
  - simpl. tauto.
  - unfold typed. vm_compute. split; discriminate.
  - exists 5. vm_compute. reflexivity.
Defined.

(** X2. A store through any overload changes no byte outside the
    location it writes, maps and unmaps no address, and leaves every
    location that shares no byte with it holding what it held, at
    whatever type that location is read. *)
Theorem store_frame
    (t : ctype) (op : Z -> Z -> M unit) (m m' : mem) (L v : Z) :
  In (t, op) store_overloads ->
  op v L m = Some (tt, m') ->
  (forall a, ~ in_location t L a -> m' !! a = m !! a) /\
  (dom m' : gset Z) = dom m /\
  (forall t2 L2, disjoint t L t2 L2 -> holds t2 L2 m' = holds t2 L2 m).
Proof.
  intros Hin Hop. rewrite (store_overload_assign t op Hin) in Hop.
  unfold assign in Hop. destruct (aligned t L); [|discriminate].
  destruct (write_bytes (encode_be (sizeof t) v) L m) as [m1|] eqn:Hw;
    [|discriminate].
  injection Hop as ->.
  assert (Hframe : forall a, ~ in_location t L a -> m' !! a = m !! a).
  { intros a Ha. apply (write_bytes_frame _ _ _ _ _ Hw).
    now rewrite length_encode_be. }
  split; [exact Hframe|]. split.
  - now apply (write_bytes_dom _ _ _ _ Hw).
  - intros t2 L2 Hdis. unfold holds.
    rewrite (read_bytes_ext (sizeof t2) L2 m' m); [reflexivity|].
    intros a Ha. apply Hframe. unfold in_location, disjoint in *. lia.
Qed.

(** A byte stored at 96 on [mem0], seen from the byte at 103 and from
    the [jint] at 100. *)
Lemma store_frame_witness :
  exists m',
    store_jbyte 1 96 mem0 = Some (tt, m') /\
    m' !! 103 = mem0 !! 103 /\
    (dom m' : gset Z) = dom mem0 /\
    holds jint 100 m' = holds jint 100 mem0.
Proof.
  destruct (store_jbyte 1 96 mem0) as [[[] m']|] eqn:Hs.
  - exists m'. split; [reflexivity|].
    destruct (store_frame jbyte store_jbyte mem0 m' 96 1) as (Hb & Hd & Hh).
    + simpl. tauto.
    + exact Hs.
    + split; [|split].
      * apply Hb. unfold in_location. simpl. lia.
      * exact Hd.
      * apply Hh. left. vm_compute. discriminate.
  - vm_compute in Hs. discriminate.
Defined.

(** X3. Two stores in a row through one overload to one address have
    the outcome of the second store alone: the last value written is
    what remains, and nothing else differs. *)
Theorem store_last_write_wins
    (t : ctype) (op : Z -> Z -> M unit) (m : mem) (L v1 v2 : Z) :
  In (t, op) store_overloads ->
  (let* _ := op v1 L in op v2 L) m = op v2 L m.
Proof.
  intros Hin. rewrite !(store_overload_assign t op Hin).
  unfold bind, assign. destruct (aligned t L); [|reflexivity].
  destruct (write_bytes (encode_be (sizeof t) v1) L m) as [m1|] eqn:Hw1.
  - rewrite (write_bytes_twice _ _ _ _ _ ltac:(now rewrite !length_encode_be) Hw1).
    reflexivity.
  - rewrite (write_bytes_None_length _ (encode_be (sizeof t) v2) _ _
               ltac:(now rewrite !length_encode_be) Hw1).
    reflexivity.
Qed.

Lemma store_last_write_wins_witness :
  (let* _ := store_ptr_voidp 4096 104 in store_ptr_voidp 8192 104) mem0
  = store_ptr_voidp 8192 104 mem0.
Proof.
  apply (store_last_write_wins void_ptr). simpl. tauto.
Defined.

(** X4. Two stores, through any two overloads, to locations that share
    no byte can be done in either order: the outcomes are the same,
    also when one of the locations is not mapped. *)
Theorem store_commute
    (t1 t2 : ctype) (op1 op2 : Z -> Z -> M unit) (m : mem) (L1 L2 v1 v2 : Z) :
  In (t1, op1) store_overloads ->
  In (t2, op2) store_overloads ->
  disjoint t1 L1 t2 L2 ->
  (let* _ := op1 v1 L1 in op2 v2 L2) m = (let* _ := op2 v2 L2 in op1 v1 L1) m.
Proof.
  intros Hin1 Hin2 Hdis.
  rewrite (store_overload_assign t1 op1 Hin1), (store_overload_assign t2 op2 Hin2).
  pose proof (write_bytes_commute (encode_be (sizeof t1) v1) (encode_be (sizeof t2) v2)
                L1 L2 m) as Hc.
  rewrite !length_encode_be in Hc. specialize (Hc Hdis).
  unfold bind, assign.
  destruct (aligned t1 L1), (aligned t2 L2);
    destruct (write_bytes (encode_be (sizeof t1) v1) L1 m) as [m1|];
    destruct (write_bytes (encode_be (sizeof t2) v2) L2 m) as [m2|];
    try reflexivity; try (now rewrite Hc); try (now rewrite <- Hc).
Qed.

(** A [jint] at 100 and a [jlong] at 104 on [mem0]. *)
Lemma store_commute_witness :
  (let* _ := store_jint 7 100 in store_jlong 9 104) mem0
  = (let* _ := store_jlong 9 104 in store_jint 7 100) mem0.
Proof.
  apply (store_commute jint jlong).
  - simpl. tauto.
  - simpl. tauto.
  - left. vm_compute. discriminate.
Defined.

(** X5. The 64-bit [load] changes no memory and returns a value of type
    [jlong]; storing that value back through the 64-bit [store] leaves
    the memory exactly as it was. *)
Theorem load_then_store_back (m m' : mem) (L v : Z) :
  load_jlong L m = Some (v, m') ->
  m' = m /\ typed jlong v /\ store_jlong v L m = Some (tt, m).
Proof.
  unfold load_jlong, deref, store_jlong, assign, holds.
  destruct (aligned jlong L); [|discriminate].
  destruct (read_bytes (sizeof jlong) L m) as [bs|] eqn:Hr; [|discriminate].
  intros [= <- <-]. split; [reflexivity|]. split; [apply typed_cast|].
  pose proof (read_bytes_length _ _ _ _ Hr) as Hlen.
  rewrite (encode_be_same_bits (sizeof jlong) _ (decode_be bs))
    by apply (cast_same_bits jlong).
  rewrite <- Hlen, encode_decode_be.
  rewrite write_bytes_read; [reflexivity|]. now rewrite Hlen.
Qed.

Lemma load_then_store_back_witness :
  mem0 = mem0 /\ typed jlong (-1) /\ store_jlong (-1) 104 mem0 = Some (tt, mem0).
Proof.
  apply (load_then_store_back mem0 mem0 104 (-1)).
  vm_compute. reflexivity.
Defined.

(** X6. A value stored through any 64-bit overload ([store] of a
    [jlong], [store_ptr] of an [intptr_t] or of a [void*]) is what the
    64-bit [load] then returns, read in two's complement: the [jlong]
    with the same 64 bits, which is the value itself when it is a
    [jlong]. *)
Theorem store64_then_load
    (t : ctype) (op : Z -> Z -> M unit) (m : mem) (L v : Z) :
  In (t, op) store_overloads ->
  sizeof t = 8%nat ->
  typed t v ->
  is_Some (holds t L m) ->
  exists m', op v L m = Some (tt, m') /\
             load_jlong L m' = Some (cast jlong v, m') /\
             same_bits 64 (cast jlong v) v /\
             (typed jlong v -> load_jlong L m' = Some (v, m')).
Proof.
  intros Hin Hsize Hv Hm.
  destruct (store_overload_holds t op m L v Hin Hv Hm) as (m' & Hs & Hh).
  apply (holds_reinterpret t jlong) in Hh; [|exact Hsize].
  assert (Hl : load_jlong L m' = Some (cast jlong v, m')).
  { unfold load_jlong, deref. now rewrite Hh. }
  exists m'. repeat split; try assumption.
  - apply (cast_same_bits jlong).
  - intros Hj. now rewrite Hl, cast_typed.
Qed.

(** The all-ones pointer stored at 96 on [mem0] is loaded as -1. *)
Lemma store64_then_load_witness :
  exists m', store_ptr_voidp (2 ^ 64 - 1) 96 mem0 = Some (tt, m') /\
             load_jlong 96 m' = Some (cast jlong (2 ^ 64 - 1), m') /\
             same_bits 64 (cast jlong (2 ^ 64 - 1)) (2 ^ 64 - 1) /\
             (typed jlong (2 ^ 64 - 1) -> load_jlong 96 m' = Some (2 ^ 64 - 1, m')).
Proof.
  apply (store64_then_load void_ptr).
  - simpl. tauto.
  - reflexivity.
  - unfold typed. vm_compute. split; discriminate.
  - exists 5. vm_compute. reflexivity.
Defined.

(** * The facade over arbitrary primitives *)

Lemma preserves_bind {A B} (P : mem -> Prop) (c : M A) (k : A -> M B) :
  preserves P c -> (forall x, preserves P (k x)) -> preserves P (let* x := c in k x).
Proof.
  intros Hc Hk m r m' Hrun HP. unfold bind in Hrun.
  destruct (c m) as [[x m1]|] eqn:Hcm; [|discriminate].
  exact (Hk x m1 r m' Hrun (Hc m x m1 Hcm HP)).
Qed.

Lemma preserves_ret {A} (P : mem -> Prop) (x : A) : preserves P (ret x).
Proof. intros m r m' [= <- <-] HP. exact HP. Qed.

(** An assignment maps and unmaps no address. *)
Lemma assign_dom (D : gset Z) (t : ctype) (p v : Z) :
  preserves (fun m => dom m = D) (assign t p v).
Proof.
  intros m r m' Hrun HP. unfold assign in Hrun.
  destruct (aligned t p); [|discriminate].
  destruct (write_bytes (encode_be (sizeof t) v) p m) as [m1|] eqn:Hw;
    [|discriminate].
  injection Hrun as _ <-. now rewrite (write_bytes_dom _ _ _ _ Hw).
Qed.

Lemma deref_preserves (P : mem -> Prop) (t : ctype) (p : Z) :
  preserves P (deref t p).
Proof.
  intros m r m' Hrun HP. unfold deref in Hrun.
  destruct (holds t p m); [|discriminate]. now injection Hrun as _ <-.
Qed.

(** The primitives as modelled keep the set of mapped addresses. *)
Lemma sparc_il_dom (D : gset Z) :
  let P := fun m : mem => dom m = D in
  (forall x d, preserves P (_Atomic_swap32 sparc_il x d)) /\
  (forall x d, preserves P (_Atomic_swap64 sparc_il x d)) /\
  (forall x d c, preserves P (_Atomic_cas32 sparc_il x d c)) /\
  (forall x d c, preserves P (_Atomic_cas64 sparc_il x d c)) /\
  (forall x d, preserves P (_Atomic_add32 sparc_il x d)) /\
  (forall x d, preserves P (_Atomic_add64 sparc_il x d)).
Proof.
  intros P.
  assert (Hs : forall t x d, preserves P (swap t x d)).
  { intros t x d. unfold swap.
    apply preserves_bind; [apply deref_preserves|]. intros old.
    apply preserves_bind; [apply assign_dom|]. intros _. apply preserves_ret. }
  assert (Hc : forall t x d c, preserves P (cas t x d c)).
  { intros t x d c. unfold cas.
    apply preserves_bind; [apply deref_preserves|]. intros old.
    destruct (old =? c); [|apply preserves_ret].
    apply preserves_bind; [apply assign_dom|]. intros _. apply preserves_ret. }
  assert (Ha : forall t x d, preserves P (fetch_add t x d)).
  { intros t x d. unfold fetch_add.
    apply preserves_bind; [apply deref_preserves|]. intros old.
    apply preserves_bind; [apply assign_dom|]. intros _. apply preserves_ret. }
  repeat split; intros; simpl; auto.
Qed.

(** X7. The facade touches memory through the primitives only: a
    property of the memory that the swap, compare-and-swap and fetch-add
    primitives keep is kept by every overload of [add], [add_ptr],
    [xchg], [xchg_ptr], [cmpxchg], [cmpxchg_ptr], [inc], [inc_ptr],
    [dec] and [dec_ptr].  Nothing is asked of [_Atomic_casl]. *)
Theorem facade_preserves_invariant
    (hw : HwAtomics) (order : Type) (P : mem -> Prop) :
  (forall x d, preserves P (_Atomic_swap32 hw x d)) ->
  (forall x d, preserves P (_Atomic_swap64 hw x d)) ->
  (forall x d c, preserves P (_Atomic_cas32 hw x d c)) ->
  (forall x d c, preserves P (_Atomic_cas64 hw x d c)) ->
  (forall x d, preserves P (_Atomic_add32 hw x d)) ->
  (forall x d, preserves P (_Atomic_add64 hw x d)) ->
  (forall t op, In (t, op) (add_overloads hw) ->
     forall x d, preserves P (op x d)) /\
  (forall t op, In (t, op) (xchg_overloads hw) ->
     forall x d, preserves P (op x d)) /\
  (forall t op, In (t, op) (cmpxchg_overloads hw) ->
     forall x d c (o : order), preserves P (op x d c o)) /\
  (forall t inc dec, In (t, (inc, dec)) (inc_dec_overloads hw) ->
     forall d, preserves P (inc d) /\ preserves P (dec d)).
Proof.
  intros Hs32 Hs64 Hc32 Hc64 Ha32 Ha64.
  assert (Hconv : forall (t : ctype) (c : M Z),
             preserves P c -> preserves P (let* r := c in ret (cast t r))).
  { intros t c Hc. apply preserves_bind; [exact Hc|].
    intros r. apply preserves_ret. }
  assert (Hdrop : forall c : M Z,
             preserves P c -> preserves P (let* _ := c in ret tt)).
  { intros c Hc. apply preserves_bind; [exact Hc|].
    intros r. apply preserves_ret. }
  assert (Hadd : forall t op, In (t, op) (add_overloads hw) ->
                 forall x d, preserves P (op x d)).
  { intros t op Hin x d. pick_overload Hin.
    - apply Ha32.
    - apply Ha64.
    - apply Hconv, Ha64. }
  split; [exact Hadd|]. split; [|split].
  - intros t op Hin x d. pick_overload Hin.
    + apply Hs32.
    + apply Hs64.
    + apply Hconv, Hs64.
  - intros t op Hin x d c o. pick_overload Hin.
    + apply Hc32.
    + apply Hconv, Hc64.
    + apply Hc64.
    + apply Hconv, Hc64.
  - intros t inc dec Hin d. simpl in Hin.
    destruct Hin as [H|[H|[H|[]]]]; injection H as <- <- <-;
      split; apply Hdrop; try apply Ha32; try apply Ha64;
      apply Hconv, Ha64.
Qed.

(** On the primitives as modelled, a [cmpxchg] of a [jlong] and a
    [dec_ptr] of a [void*] on [mem0] map and unmap no address. *)
Lemma facade_preserves_invariant_witness :
  (exists r m', cmpxchg_jlong sparc_il 7 96 5 true mem0 = Some (r, m') /\
                dom m' = dom mem0) /\
  (exists m', dec_ptr_voidp sparc_il 104 mem0 = Some (tt, m') /\
              dom m' = dom mem0).
Proof.
  destruct (sparc_il_dom (dom mem0)) as (H1 & H2 & H3 & H4 & H5 & H6).
  destruct (facade_preserves_invariant sparc_il bool
              (fun m : mem => dom m = dom mem0) H1 H2 H3 H4 H5 H6)
    as (_ & _ & Hcas & Hincdec).
  split.
  - destruct (cmpxchg_jlong sparc_il 7 96 5 true mem0) as [[r m']|] eqn:Hrun.
    + exists r, m'. split; [reflexivity|].
      apply (Hcas jlong (cmpxchg_jlong sparc_il) ltac:(simpl; tauto)
               7 96 5 true mem0 r m' Hrun eq_refl).
    + vm_compute in Hrun. discriminate.
  - destruct (dec_ptr_voidp sparc_il 104 mem0) as [[[] m']|] eqn:Hrun.
    + exists m'. split; [reflexivity|].
      destruct (Hincdec void_ptr (inc_ptr_voidp sparc_il) (dec_ptr_voidp sparc_il)
                  ltac:(simpl; tauto) 104) as (_ & Hdec).
      apply (Hdec mem0 tt m' Hrun eq_refl).
    + vm_compute in Hrun. discriminate.
Defined.

(** ** Increments and decrements under the fetch-add contract *)

Lemma cast_plus_l (t : ctype) (a b : Z) : cast t (cast t a + b) = cast t (a + b).
Proof.
  apply cast_congr. unfold same_bits.
  pose proof (cast_same_bits t a) as Ha. unfold same_bits in Ha.
  rewrite Zplus_mod, Ha, <- Zplus_mod. reflexivity.
Qed.

(** The modelled primitives meet the contract. *)
Lemma fetch_add_meets_contract (t : ctype) : fetch_add_contract t (fetch_add t).
Proof. intros d L V m H. now apply fetch_add_holds. Qed.

(** The contract of the two primitives is the contract of every overload
    of [add] and [add_ptr], at the type of its location. *)
Lemma add_overload_contract (hw : HwAtomics) (t : ctype) (op : Z -> Z -> M Z) :
  fetch_add_contract jint (_Atomic_add32 hw) ->
  fetch_add_contract intptr_t (_Atomic_add64 hw) ->
  In (t, op) (add_overloads hw) ->
  fetch_add_contract t op.
Proof.
  intros H32 H64 Hin. pick_overload Hin.
  - exact H32.
  - exact H64.
  - intros D L V m HV.
    apply (holds_reinterpret void_ptr intptr_t) in HV; [|reflexivity].
    destruct (H64 (cast intptr_t D) L _ m HV) as (m' & Hop & Hh).
    assert (Hc : cast void_ptr (cast intptr_t (cast intptr_t V + cast intptr_t D))
                 = cast void_ptr (V + D)).
    { rewrite cast_cast by reflexivity.
      now apply (cast_sum void_ptr intptr_t). }
    exists m'. unfold add_ptr_voidp, add_ptr_intptr, bind, ret.
    rewrite Hop, Hc. split; [reflexivity|].
    apply (holds_reinterpret intptr_t void_ptr) in Hh; [|reflexivity].
    now rewrite Hh, Hc.
Qed.

(** One [inc] and one [dec], at every overload. *)
Lemma inc_dec_step
    (hw : HwAtomics) (t : ctype) (inc dec : Z -> M unit) (m : mem) (L V : Z) :
  fetch_add_contract jint (_Atomic_add32 hw) ->
  fetch_add_contract intptr_t (_Atomic_add64 hw) ->
  In (t, (inc, dec)) (inc_dec_overloads hw) ->
  holds t L m = Some V ->
  (exists m', inc L m = Some (tt, m') /\ holds t L m' = Some (cast t (V + 1))) /\
  (exists m', dec L m = Some (tt, m') /\ holds t L m' = Some (cast t (V + -1))).
Proof.
  intros H32 H64 Hin HV.
  assert (Hstep : forall op D, In (t, op) (add_overloads hw) ->
            exists m', (let* _ := op D L in ret tt) m = Some (tt, m') /\
                       holds t L m' = Some (cast t (V + D))).
  { intros op D Hop.
    destruct (add_overload_contract hw t op H32 H64 Hop D L V m HV)
      as (m' & Hrun & Hh).
    exists m'. unfold bind, ret. now rewrite Hrun. }
  simpl in Hin.
  destruct Hin as [H|[H|[H|[]]]]; injection H as <- <- <-; split;
    apply Hstep; simpl; tauto.
Qed.

(** X8. Provided the two fetch-add primitives return and store the sum
    in the arithmetic of their type, [inc] followed by [dec] (and [dec]
    followed by [inc]) through any overload leaves the location holding
    the value it held, also when the value in between wrapped around. *)
Theorem inc_then_dec_restores
    (hw : HwAtomics) (t : ctype) (inc dec : Z -> M unit) (m : mem) (L V : Z) :
  fetch_add_contract jint (_Atomic_add32 hw) ->
  fetch_add_contract intptr_t (_Atomic_add64 hw) ->
  In (t, (inc, dec)) (inc_dec_overloads hw) ->
  holds t L m = Some V ->
  (exists m', (let* _ := inc L in dec L) m = Some (tt, m') /\
              holds t L m' = Some V) /\
  (exists m', (let* _ := dec L in inc L) m = Some (tt, m') /\
              holds t L m' = Some V).
Proof.
  intros H32 H64 Hin HV.
  pose proof (holds_typed _ _ _ _ HV) as HtV.
  destruct (inc_dec_step hw t inc dec m L V H32 H64 Hin HV)
    as ((m1 & Hi & Hh1) & (m2 & Hd & Hh2)).
  split.
  - destruct (inc_dec_step hw t inc dec m1 L _ H32 H64 Hin Hh1)
      as (_ & (m' & Hd' & Hh')).
    exists m'. unfold bind. rewrite Hi. split; [exact Hd'|].
    rewrite Hh', cast_plus_l. f_equal.
    replace (V + 1 + -1) with V by lia. now apply cast_typed.
  - destruct (inc_dec_step hw t inc dec m2 L _ H32 H64 Hin Hh2)
      as ((m' & Hi' & Hh') & _).
    exists m'. unfold bind. rewrite Hd. split; [exact Hi'|].
    rewrite Hh', cast_plus_l. f_equal.
    replace (V + -1 + 1) with V by lia. now apply cast_typed.
Qed.

(** The all-ones pointer at 104 on [mem0]: [inc_ptr] wraps it to null,
    [dec_ptr] brings it back. *)
Lemma inc_then_dec_restores_witness :
  (exists m', (let* _ := inc_ptr_voidp sparc_il 104 in dec_ptr_voidp sparc_il 104) mem0
              = Some (tt, m') /\
              holds void_ptr 104 m' = Some (2 ^ 64 - 1)) /\
  (exists m', (let* _ := dec_ptr_voidp sparc_il 104 in inc_ptr_voidp sparc_il 104) mem0
              = Some (tt, m') /\
              holds void_ptr 104 m' = Some (2 ^ 64 - 1)).
Proof.
  apply (inc_then_dec_restores sparc_il void_ptr).
  - apply (fetch_add_meets_contract jint).
  - apply (fetch_add_meets_contract intptr_t).
  - simpl. tauto.
  - vm_compute. reflexivity.
Defined.

(** X9. Provided the two fetch-add primitives return and store the sum
    in the arithmetic of their type, [n] calls of [inc] in a row leave
    the location holding what one [add] of [n] leaves and returns, the
    old value plus [n] in the arithmetic of the type; and [n] calls of
    [dec] leave the old value minus [n]. *)
Theorem inc_n_times_is_add_n
    (hw : HwAtomics) (t : ctype) (inc dec : Z -> M unit) (add : Z -> Z -> M Z)
    (n : nat) (m : mem) (L V : Z) :
  fetch_add_contract jint (_Atomic_add32 hw) ->
  fetch_add_contract intptr_t (_Atomic_add64 hw) ->
  In (t, (inc, dec)) (inc_dec_overloads hw) ->
  In (t, add) (add_overloads hw) ->
  holds t L m = Some V ->
  (exists m', repeat_op n (inc L) m = Some (tt, m') /\
              holds t L m' = Some (cast t (V + Z.of_nat n))) /\
  (exists m', repeat_op n (dec L) m = Some (tt, m') /\
              holds t L m' = Some (cast t (V - Z.of_nat n))) /\
  (exists m', add (Z.of_nat n) L m = Some (cast t (V + Z.of_nat n), m') /\
              holds t L m' = Some (cast t (V + Z.of_nat n))).
Proof.
  intros H32 H64 Hin Hadd HV.
  split; [|split].
  - revert m V HV. induction n as [|k IH]; intros m V HV.
    + exists m. split; [reflexivity|].
      rewrite HV. f_equal. rewrite Z.add_0_r. symmetry.
      apply cast_typed. exact (holds_typed _ _ _ _ HV).
    + destruct (inc_dec_step hw t inc dec m L V H32 H64 Hin HV)
        as ((m1 & Hi & Hh1) & _).
      destruct (IH m1 _ Hh1) as (m' & Hrun & Hh').
      exists m'. simpl repeat_op. unfold bind at 1. rewrite Hi.
      split; [exact Hrun|].
      rewrite Hh', cast_plus_l. do 2 f_equal. lia.
  - revert m V HV. induction n as [|k IH]; intros m V HV.
    + exists m. split; [reflexivity|].
      rewrite HV. f_equal. rewrite Z.sub_0_r. symmetry.
      apply cast_typed. exact (holds_typed _ _ _ _ HV).
    + destruct (inc_dec_step hw t inc dec m L V H32 H64 Hin HV)
        as (_ & (m1 & Hd & Hh1)).
      destruct (IH m1 _ Hh1) as (m' & Hrun & Hh').
      exists m'. simpl repeat_op. unfold bind at 1. rewrite Hd.
      split; [exact Hrun|].
      rewrite Hh'. unfold Z.sub. rewrite cast_plus_l. do 2 f_equal. lia.
  - exact (add_overload_contract hw t add H32 H64 Hadd (Z.of_nat n) L V m HV).
Qed.

(** Three increments of the 5 at address 100 of [mem0]. *)
Lemma inc_n_times_is_add_n_witness :
  (exists m', repeat_op 3 (inc_jint sparc_il 100) mem0 = Some (tt, m') /\
              holds jint 100 m' = Some (cast jint (5 + Z.of_nat 3))) /\
  (exists m', repeat_op 3 (dec_jint sparc_il 100) mem0 = Some (tt, m') /\
              holds jint 100 m' = Some (cast jint (5 - Z.of_nat 3))) /\
  (exists m', add_jint sparc_il (Z.of_nat 3) 100 mem0
              = Some (cast jint (5 + Z.of_nat 3), m') /\
              holds jint 100 m' = Some (cast jint (5 + Z.of_nat 3))).
Proof.
  apply (inc_n_times_is_add_n sparc_il jint (inc_jint sparc_il) (dec_jint sparc_il)).
  - apply (fetch_add_meets_contract jint).
  - apply (fetch_add_meets_contract intptr_t).
  - simpl. tauto.
  - simpl. tauto.
  - vm_compute. reflexivity.
Defined.

(** ** Exchanges under the swap and compare-and-swap contracts *)

Lemma swap_meets_contract (t : ctype) : swap_contract t (swap t).
Proof. intros x L V m H. now apply swap_holds. Qed.

Lemma cas_meets_contract (t : ctype) : cas_contract t (cas t).
Proof.
  intros x L c V m H. split.
  - intros <-. now apply cas_hit.
  - intros Hne. apply cas_miss; [exact H | congruence].
Qed.

(** The contract of the two swap primitives is the contract of every
    overload of [xchg] and [xchg_ptr], at the type of its location. *)
Lemma xchg_overload_contract (hw : HwAtomics) (t : ctype) (op : Z -> Z -> M Z) :
  swap_contract jint (_Atomic_swap32 hw) ->
  swap_contract intptr_t (_Atomic_swap64 hw) ->
  In (t, op) (xchg_overloads hw) ->
  swap_contract t op.
Proof.
  intros H32 H64 Hin. pick_overload Hin.
  - exact H32.
  - exact H64.
  - intros x L V m HV.
    pose proof (holds_typed _ _ _ _ HV) as HtV.
    apply (holds_reinterpret void_ptr intptr_t) in HV; [|reflexivity].
    destruct (H64 (cast intptr_t x) L _ m HV) as (m' & Hop & Hh).
    exists m'. unfold xchg_ptr_voidp, xchg_ptr_intptr, bind, ret.
    rewrite Hop, (cast_back void_ptr intptr_t eq_refl V HtV).
    split; [reflexivity|].
    apply (holds_reinterpret intptr_t void_ptr) in Hh; [|reflexivity].
    rewrite Hh. f_equal. now rewrite !cast_cast.
Qed.

(** The contract of the two compare-and-swap primitives is the contract
    of every overload of [cmpxchg] and [cmpxchg_ptr], at the type of its
    location and for a compare value of that type. *)
Lemma cmpxchg_overload_contract
    (hw : HwAtomics) (order : Type) (t : ctype)
    (op : Z -> Z -> Z -> order -> M Z) (o : order)
    (x L c V : Z) (m : mem) :
  cas_contract jint (_Atomic_cas32 hw) ->
  cas_contract intptr_t (_Atomic_cas64 hw) ->
  In (t, op) (cmpxchg_overloads hw) ->
  typed t c ->
  holds t L m = Some V ->
  (V = c -> exists m', op x L c o m = Some (V, m') /\
                       holds t L m' = Some (cast t x)) /\
  (V <> c -> op x L c o m = Some (V, m)).
Proof.
  intros H32 H64 Hin Hc HV.
  pose proof (holds_typed _ _ _ _ HV) as HtV.
  assert (Hview : forall u : ctype, sizeof u = 8%nat -> typed u c -> typed u V ->
            holds u L m = Some V ->
            (V = c -> exists m',
                (let* r := _Atomic_cas64 hw (cast intptr_t x) L (cast intptr_t c) in
                 ret (cast u r)) m = Some (V, m') /\
                holds u L m' = Some (cast u x)) /\
            (V <> c ->
                (let* r := _Atomic_cas64 hw (cast intptr_t x) L (cast intptr_t c) in
                 ret (cast u r)) m = Some (V, m))).
  { intros u Hu Huc HuV Hh.
    apply (holds_reinterpret u intptr_t) in Hh; [|exact Hu].
    destruct (H64 (cast intptr_t x) L (cast intptr_t c) _ m Hh) as (Hhit & Hmiss).
    split.
    - intros Heq. destruct Hhit as (m' & Hop & Hh'); [now rewrite Heq|].
      exists m'. unfold bind, ret.
      rewrite Hop, (cast_back u intptr_t Hu V HuV). split; [reflexivity|].
      apply (holds_reinterpret intptr_t u) in Hh'; [|now symmetry].
      rewrite Hh'. f_equal.
      rewrite (cast_cast intptr_t u) by (now symmetry).
      apply cast_cast. now symmetry.
    - intros Hne. unfold bind, ret. rewrite Hmiss.
      + now rewrite (cast_back u intptr_t Hu V HuV).
      + intros H. apply Hne. now apply (cast_inj u intptr_t Hu). }
  pick_overload Hin.
  - exact (H32 x L c V m HV).
  - now apply (Hview jlong).
  - exact (H64 x L c V m HV).
  - now apply (Hview void_ptr).
Qed.

(** X10. Provided the two compare-and-swap primitives return the prior
    contents and store only on a match, a [cmpxchg] or [cmpxchg_ptr]
    whose new value and compare value are the same value [x] acts as a
    read, through every overload: it returns what the location holds and
    the location holds the same value afterwards, whether or not the
    compare matched. *)
Theorem cmpxchg_same_value_is_a_read
    (hw : HwAtomics) (order : Type) (t : ctype)
    (op : Z -> Z -> Z -> order -> M Z) (o : order) (x L V : Z) (m : mem) :
  cas_contract jint (_Atomic_cas32 hw) ->
  cas_contract intptr_t (_Atomic_cas64 hw) ->
  In (t, op) (cmpxchg_overloads hw) ->
  typed t x ->
  holds t L m = Some V ->
  exists m', op x L x o m = Some (V, m') /\ holds t L m' = Some V.
Proof.
  intros H32 H64 Hin Hx HV.
  destruct (cmpxchg_overload_contract hw order t op o x L x V m H32 H64 Hin Hx HV)
    as (Hhit & Hmiss).
  destruct (Z.eq_dec V x) as [Heq|Hne].
  - destruct (Hhit Heq) as (m' & Hop & Hh). exists m'. split; [exact Hop|].
    rewrite Hh, Heq. f_equal. now apply cast_typed.
  - exists m. split; [now apply Hmiss | exact HV].
Qed.

(** The 64-bit overload on [mem0], at the 5 that address 96 holds and at
    another value. *)
Lemma cmpxchg_same_value_is_a_read_witness :
  (exists m', cmpxchg_jlong sparc_il 5 96 5 tt mem0 = Some (5, m') /\
              holds jlong 96 m' = Some 5) /\
  (exists m', cmpxchg_jlong sparc_il 0 96 0 tt mem0 = Some (5, m') /\
              holds jlong 96 m' = Some 5).
Proof.
  split.
  - apply (cmpxchg_same_value_is_a_read sparc_il unit jlong).
    + apply (cas_meets_contract jint).
    + apply (cas_meets_contract intptr_t).
    + simpl. tauto.
    + unfold typed. vm_compute. split; discriminate.
    + vm_compute. reflexivity.
  - apply (cmpxchg_same_value_is_a_read sparc_il unit jlong).
    + apply (cas_meets_contract jint).
    + apply (cas_meets_contract intptr_t).
    + simpl. tauto.
    + unfold typed. vm_compute. split; discriminate.
    + vm_compute. reflexivity.
Defined.

(** X11. Provided the two swap primitives return the prior contents and
    store the new value, exchanging a value [N] in and then exchanging
    the returned value back, through any overload of [xchg] and
    [xchg_ptr], returns [N] and leaves the location holding what it held
    at the start. *)
Theorem xchg_then_xchg_back
    (hw : HwAtomics) (t : ctype) (op : Z -> Z -> M Z) (m : mem) (L V N : Z) :
  swap_contract jint (_Atomic_swap32 hw) ->
  swap_contract intptr_t (_Atomic_swap64 hw) ->
  In (t, op) (xchg_overloads hw) ->
  typed t N ->
  holds t L m = Some V ->
  exists m', (let* r := op N L in op r L) m = Some (N, m') /\
             holds t L m' = Some V.
Proof.
  intros H32 H64 Hin HN HV.
  pose proof (holds_typed _ _ _ _ HV) as HtV.
  pose proof (xchg_overload_contract hw t op H32 H64 Hin) as Hc.
  destruct (Hc N L V m HV) as (m1 & Hop1 & Hh1).
  rewrite (cast_typed t N HN) in Hh1.
  destruct (Hc V L N m1 Hh1) as (m' & Hop2 & Hh2).
  rewrite (cast_typed t V HtV) in Hh2.
  exists m'. unfold bind. rewrite Hop1. split; assumption.
Qed.

Lemma xchg_then_xchg_back_witness :
  exists m', (let* r := xchg_ptr_voidp sparc_il 4096 104 in
              xchg_ptr_voidp sparc_il r 104) mem0 = Some (4096, m') /\
             holds void_ptr 104 m' = Some (2 ^ 64 - 1).
Proof.
  apply (xchg_then_xchg_back sparc_il void_ptr).
  - apply (swap_meets_contract jint).
  - apply (swap_meets_contract intptr_t).
  - simpl. tauto.
  - unfold typed. vm_compute. split; discriminate.
  - vm_compute. reflexivity.
Defined.

(** X12. Provided the primitives meet their contracts, the operations
    agree on what a location holds after a store of [v] through the
    overload of its type: an [xchg] returns [v], a [cmpxchg] that
    expects [v] returns [v] and leaves the new value, and an [add] of
    [D] returns [v + D] in the arithmetic of the type. *)
Theorem store_then_atomic
    (hw : HwAtomics) (order : Type) (o : order) (t : ctype)
    (st : Z -> Z -> M unit) (m : mem) (L v N D : Z) :
  swap_contract jint (_Atomic_swap32 hw) ->
  swap_contract intptr_t (_Atomic_swap64 hw) ->
  cas_contract jint (_Atomic_cas32 hw) ->
  cas_contract intptr_t (_Atomic_cas64 hw) ->
  fetch_add_contract jint (_Atomic_add32 hw) ->
  fetch_add_contract intptr_t (_Atomic_add64 hw) ->
  In (t, st) store_overloads ->
  typed t v -> typed t N ->
  is_Some (holds t L m) ->
  (forall op, In (t, op) (xchg_overloads hw) ->
     exists m', (let* _ := st v L in op N L) m = Some (v, m') /\
                holds t L m' = Some N) /\
  (forall op, In (t, op) (cmpxchg_overloads hw) ->
     exists m', (let* _ := st v L in op N L v o) m = Some (v, m') /\
                holds t L m' = Some N) /\
  (forall op, In (t, op) (add_overloads hw) ->
     exists m', (let* _ := st v L in op D L) m = Some (cast t (v + D), m') /\
                holds t L m' = Some (cast t (v + D))).
Proof.
  intros Hs32 Hs64 Hc32 Hc64 Ha32 Ha64 Hst Hv HN Hm.
  destruct (store_overload_holds t st m L v Hst Hv Hm) as (m1 & Hrun & Hh).
  split; [|split]; intros op Hin; unfold bind; rewrite Hrun.
  - destruct (xchg_overload_contract hw t op Hs32 Hs64 Hin N L v m1 Hh)
      as (m' & Hop & Hh').
    exists m'. split; [exact Hop|]. now rewrite Hh', cast_typed.
  - destruct (cmpxchg_overload_contract hw order t op o N L v v m1
                Hc32 Hc64 Hin Hv Hh) as (Hhit & _).
    destruct (Hhit eq_refl) as (m' & Hop & Hh').
    exists m'. split; [exact Hop|]. now rewrite Hh', cast_typed.
  - exact (add_overload_contract hw t op Ha32 Ha64 Hin D L v m1 Hh).
Qed.

(** A pointer stored at 104 on [mem0], then exchanged, compared and
    advanced. *)
Lemma store_then_atomic_witness :
  (exists m', (let* _ := store_ptr_voidp 4096 104 in
               xchg_ptr_voidp sparc_il 8192 104) mem0 = Some (4096, m') /\
              holds void_ptr 104 m' = Some 8192) /\
  (exists m', (let* _ := store_ptr_voidp 4096 104 in
               cmpxchg_ptr_voidp sparc_il 8192 104 4096 tt) mem0 = Some (4096, m') /\
              holds void_ptr 104 m' = Some 8192) /\
  (exists m', (let* _ := store_ptr_voidp 4096 104 in
               add_ptr_voidp sparc_il 16 104) mem0
              = Some (cast void_ptr (4096 + 16), m') /\
              holds void_ptr 104 m' = Some (cast void_ptr (4096 + 16))).
Proof.
  destruct (store_then_atomic sparc_il unit tt void_ptr store_ptr_voidp
              mem0 104 4096 8192 16) as (Hx & Hc & Ha).
  - apply (swap_meets_contract jint).
  - apply (swap_meets_contract intptr_t).
  - apply (cas_meets_contract jint).
  - apply (cas_meets_contract intptr_t).
  - apply (fetch_add_meets_contract jint).
  - apply (fetch_add_meets_contract intptr_t).
  - simpl. tauto.
  - unfold typed. vm_compute. split; discriminate.
  - unfold typed. vm_compute. split; discriminate.
  - exists (2 ^ 64 - 1). vm_compute. reflexivity.
  - split; [|split].
    + apply (Hx (xchg_ptr_voidp sparc_il)). simpl. tauto.
    + apply (Hc (cmpxchg_ptr_voidp sparc_il)). simpl. tauto.
    + apply (Ha (add_ptr_voidp sparc_il)). simpl. tauto.
Defined.
